(** * Codemod runs: review, selection and application of jobs

    A shallow embedding of the extension's command handlers and webview
    providers (TypeScript), together with the store they act on.

    Layout: the embedding comes first (values, store, providers, commands,
    persisted-state codec, selection tree, execution queue); the properties
    follow in the second half of the file. *)

From Stdlib Require Import ZArith Floats Uint63.
From stdpp Require Import gmap strings list fin_maps sorting.

Local Open Scope string_scope.
Local Open Scope list_scope.
Set Warnings "-register-all".

(** ** Hash digests

    [CaseHash], [JobHash], [CodemodHash] and the explorer node digests are
    branded strings in the sources. *)

Abbreviation CaseHash := string (only parsing).
Abbreviation JobHash := string (only parsing).
Abbreviation CodemodHash := string (only parsing).
Abbreviation ExplorerNodeHashDigest := string (only parsing).

(** ** Values of type [unknown]

    What a command receives as [arg0] and what a codec decodes: the JSON
    fragment of JavaScript values.  Objects keep their properties in
    insertion order. *)

Inductive unknown : Type :=
| UUndefined
| UNull
| UBoolean (b : bool)
| UNumber (n : Z)
| UString (s : string)
| UArray (items : list unknown)
| UObject (props : list (string * unknown)).

(** [u[key]], [undefined] when the property is missing. *)
Fixpoint getProp (key : string) (props : list (string * unknown)) : unknown :=
  match props with
  | [] => UUndefined
  | (k, v) :: rest => if decide (k = key) then v else getProp key rest
  end.

(** ** Uris

    [vscode.Uri] values are objects: a JavaScript [Set] or [===] tells two
    of them apart by reference ([uri_ref]), while [toString()] and [fsPath]
    read their contents. *)

Record Uri := {
  uri_ref : nat;
  uri_toString : string;
  fsPath : string;
}.

(** ** Jobs and cases *)

Module Jobs.

Inductive JobKind :=
| rewriteFile
| createFile
| deleteFile
| moveFile
| moveAndRewriteFile
| copyFile.

#[global] Instance JobKind_eq_dec : EqDecision JobKind.
Proof. solve_decision. Defined.

Record Job := {
  hash : JobHash;
  kind : JobKind;
  oldUri : option Uri;
  newUri : option Uri;
  newContentText : option string;
  createdAt : Z;
}.

End Jobs.

Module Cases.

Record CaseWithJobHashes := {
  hash : CaseHash;
  codemodName : string;
  createdAt : Z;
  path : string;
  jobHashes : list JobHash;
}.

End Cases.

(** ** The store

    The fields of [RootState] that the embedded code reads or writes;
    [persistedStateCodecNew] lists them all. *)

Record RootState := {
  case_entities : gmap CaseHash Cases.CaseWithJobHashes;
  job_entities : gmap JobHash Jobs.Job;
  executionPaths : gmap CodemodHash string;
  selectedCaseHash : option CaseHash;
  applySelectedInProgress : bool;
  selectedExplorerNodes : gmap CaseHash (list ExplorerNodeHashDigest);
  indeterminateExplorerNodes : gmap CaseHash (list ExplorerNodeHashDigest);
}.

Inductive Action :=
| setApplySelectedInProgress (b : bool)
| clearSelectedExplorerNodes (caseHash : CaseHash)
| clearIndeterminateExplorerNodes (caseHash : CaseHash)
| setExecutionPath (codemodHash : CodemodHash) (path : string)
| setSelectedCaseHash (caseHash : option CaseHash).

(** Modelled from the spec: the slice reducers ([data/slice]) are not among
    the sources.  Each action named by the embedded code stores its payload
    in the field it is named after; the two [clear...] actions leave the
    case with an empty list of digests. *)
Definition reducer (a : Action) (s : RootState) : RootState :=
  match a with
  | setApplySelectedInProgress b =>
      {| case_entities := case_entities s;
         job_entities := job_entities s;
         executionPaths := executionPaths s;
         selectedCaseHash := selectedCaseHash s;
         applySelectedInProgress := b;
         selectedExplorerNodes := selectedExplorerNodes s;
         indeterminateExplorerNodes := indeterminateExplorerNodes s |}
  | clearSelectedExplorerNodes h =>
      {| case_entities := case_entities s;
         job_entities := job_entities s;
         executionPaths := executionPaths s;
         selectedCaseHash := selectedCaseHash s;
         applySelectedInProgress := applySelectedInProgress s;
         selectedExplorerNodes := <[h := []]> (selectedExplorerNodes s);
         indeterminateExplorerNodes := indeterminateExplorerNodes s |}
  | clearIndeterminateExplorerNodes h =>
      {| case_entities := case_entities s;
         job_entities := job_entities s;
         executionPaths := executionPaths s;
         selectedCaseHash := selectedCaseHash s;
         applySelectedInProgress := applySelectedInProgress s;
         selectedExplorerNodes := selectedExplorerNodes s;
         indeterminateExplorerNodes := <[h := []]> (indeterminateExplorerNodes s) |}
  | setExecutionPath h p =>
      {| case_entities := case_entities s;
         job_entities := job_entities s;
         executionPaths := <[h := p]> (executionPaths s);
         selectedCaseHash := selectedCaseHash s;
         applySelectedInProgress := applySelectedInProgress s;
         selectedExplorerNodes := selectedExplorerNodes s;
         indeterminateExplorerNodes := indeterminateExplorerNodes s |}
  | setSelectedCaseHash h =>
      {| case_entities := case_entities s;
         job_entities := job_entities s;
         executionPaths := executionPaths s;
         selectedCaseHash := h;
         applySelectedInProgress := applySelectedInProgress s;
         selectedExplorerNodes := selectedExplorerNodes s;
         indeterminateExplorerNodes := indeterminateExplorerNodes s |}
  end.

(** The digests recorded for a case, read as the sources read such records
    ([record[caseHash] ?? []]). *)
Definition nodesOf (m : gmap CaseHash (list ExplorerNodeHashDigest))
  (h : CaseHash) : list ExplorerNodeHashDigest :=
  default [] (m !! h).

(** ** The world a command runs in

    The store, the workspace files, and the calls the command makes on its
    collaborators, oldest first. *)

Inductive Effect :=
| Dispatch (a : Action)
| AcceptJobs (jobHashes : gset JobHash)
| DeleteJobs (jobHashes : list JobHash)
| ExecuteCommand (command : string)
| ShowErrorMessage (message : string)
| ShowWarningMessage (message : string)
| ShowInformationMessage (message : string)
| SendError (commandName : string).

Record World := {
  store : RootState;
  files : gmap string string;
  trace : list Effect;
}.

Definition emit (e : Effect) (w : World) : World :=
  {| store := store w; files := files w; trace := trace w ++ [e] |}.

(** [store.dispatch(action)] *)
Definition dispatch (a : Action) (w : World) : World :=
  {| store := reducer a (store w);
     files := files w;
     trace := trace w ++ [Dispatch a] |}.

(** How a block of statements ends: it runs to its end, it leaves the
    function with [return], or it throws. *)
Inductive Completion :=
| Normal
| Return
| Throw (message : string).

(** ** MainViewProvider *)

Module MainViewProvider.

Inductive WebviewMessage :=
| setCodemodExecutionProgress (codemodHash : CodemodHash)
    (progressKind : string) (totalFileNumber processedFileNumber : Z)
| codemodExecutionHalted.

Record WebviewView := { posted : list WebviewMessage }.

Record Provider := {
  __view : option WebviewView;
  __rootUri : option Uri;
}.

(** [this.__view?.webview.postMessage(message)] *)
Definition __postMessage (m : WebviewMessage) (p : Provider) : Provider :=
  match __view p with
  | None => p
  | Some v =>
      {| __view := Some {| posted := posted v ++ [m] |};
         __rootUri := __rootUri p |}
  end.

(** The [MessageKind.showProgress] message of the bus. *)
Record ShowProgress := {
  codemodHash : option CodemodHash;
  progressKind : string;
  totalFileNumber : Z;
  processedFileNumber : Z;
}.

(** The subscription to [MessageKind.showProgress] set up by the
    constructor. *)
Definition onShowProgress (message : ShowProgress) (p : Provider) : Provider :=
  match codemodHash message with
  | None => p
  | Some h =>
      __postMessage
        (setCodemodExecutionProgress h (progressKind message)
           (totalFileNumber message) (processedFileNumber message)) p
  end.

Record UpdateExecutionPathArgs := {
  newPath : string;
  arg_codemodHash : CodemodHash;
  errorMessage : option string;
  warningMessage : option string;
  revertToPrevExecutionIfInvalid : bool;
  fromVSCodeCommand : option bool;
}.

(** [updateExecutionPath]; [stat path] tells whether
    [workspace.fs.stat(Uri.file(path))] resolves. *)
Definition updateExecutionPath (stat : string -> bool)
  (args : UpdateExecutionPathArgs) (p : Provider) (w : World) : World :=
  match __rootUri p with
  | None => emit (ShowWarningMessage "No active workspace is found.") w
  | Some _ =>
      let persistedExecutionPath :=
        executionPaths (store w) !! arg_codemodHash args in
      let oldExecutionPath := persistedExecutionPath in
      if stat (newPath args) then
        let w1 := dispatch (setExecutionPath (arg_codemodHash args) (newPath args)) w in
        if bool_decide (Some (newPath args) <> oldExecutionPath)
           && negb (default false (fromVSCodeCommand args))
        then emit (ShowInformationMessage "Successfully updated the execution path.") w1
        else w1
      else
        let w1 :=
          match errorMessage args with
          | Some m => emit (ShowErrorMessage m) w
          | None => w
          end in
        let w2 :=
          match warningMessage args with
          | Some m => emit (ShowWarningMessage m) w1
          | None => w1
          end in
        match oldExecutionPath with
        | None => w2
        | Some old =>
            if revertToPrevExecutionIfInvalid args then
              dispatch (setExecutionPath (arg_codemodHash args) old) w2
            else
              dispatch (setExecutionPath (arg_codemodHash args) old) w2
        end
  end.

End MainViewProvider.

(** ** CodemodListPanelProvider *)

Module CodemodListPanelProvider.

(** [value] is a JavaScript number: a binary64 float. *)
Inductive WebviewMessage :=
| setCodemodExecutionProgress (value : float) (codemodHash : CodemodHash)
| codemodExecutionHalted.

Record WebviewView := { posted : list WebviewMessage }.

Record Provider := {
  __view : option WebviewView;
}.

Definition __postMessage (m : WebviewMessage) (p : Provider) : Provider :=
  match __view p with
  | None => p
  | Some v => {| __view := Some {| posted := posted v ++ [m] |} |}
  end.

(** The payload of a progress event; the two counts are of type [number],
    binary64 floats. *)
Record Progress := {
  processedFiles : float;
  totalFiles : float;
  codemodHash : option CodemodHash;
}.

(** [Math.round]: a number that is not finite, a zero and an integral
    number are returned as they are; any other number [x] gives the
    integral number closest to it, the one closer to plus infinity when
    two are equally close, which is the floor of [x + 1/2] taken exactly;
    a result of zero keeps the sign of [x].  A float with a negative
    exponent lies below [2^53] in magnitude, so the integer found is a
    float. *)
Definition Math_round (x : float) : float :=
  match Prim2SF x with
  | S754_finite s m e =>
      if (0 <=? e)%Z then x
      else
        let r :=
          ((2 * (if s then Z.neg m else Z.pos m) + 2 ^ (- e)) / 2 ^ (1 - e))%Z in
        if (r =? 0)%Z then (if s then neg_zero else zero)
        else if (r <? 0)%Z then (- PrimFloat.of_uint63 (Uint63.of_Z (- r)))%float
        else PrimFloat.of_uint63 (Uint63.of_Z r)
  | _ => x
  end.

(** [totalFiles > 0 ? Math.round((processedFiles / totalFiles) * 100) : 0] *)
Definition progressOf (e : Progress) : float :=
  if (0 <? totalFiles e)%float
  then Math_round (processedFiles e / totalFiles e * 100)%float
  else 0%float.

(** [handleCodemodExecutionProgress]; [!codemodHash] holds for a missing
    hash and for the empty string, [totalFiles === 0] for both zeros. *)
Definition handleCodemodExecutionProgress (e : Progress) (p : Provider) : Provider :=
  match codemodHash e with
  | None => p
  | Some h =>
      if bool_decide (h = "") || (totalFiles e =? 0)%float then p
      else __postMessage (setCodemodExecutionProgress (progressOf e) h) p
  end.

End CodemodListPanelProvider.

(** ** CampaignManagerProvider *)

Module CampaignManagerProvider.

Import Jobs.

(** Modelled from the spec: the element builders ([buildJobElement],
    [buildFileElement], [buildCaseElement]) are not among the sources.  An
    element keeps the arguments it is built from; a case element is
    labelled with the name of its codemod. *)
Record JobElement := {
  jobElement_job : Job;
  jobElement_rootPath : string;
}.

Record FileElement := {
  fileElement_caseHash : CaseHash;
  fileElement_label : string;
  fileElement_children : list JobElement;
}.

Record CaseElement := {
  caseElement_hash : CaseHash;
  caseElement_label : string;
  caseElement_children : list FileElement;
}.

Definition buildJobElement (job : Job) (rootPath : string) : JobElement :=
  {| jobElement_job := job; jobElement_rootPath := rootPath |}.

Definition buildFileElement (caseHash : CaseHash) (label : string)
  (children : list JobElement) : FileElement :=
  {| fileElement_caseHash := caseHash;
     fileElement_label := label;
     fileElement_children := children |}.

Definition buildCaseElement (kase : Cases.CaseWithJobHashes)
  (children : list FileElement) : CaseElement :=
  {| caseElement_hash := Cases.hash kase;
     caseElement_label := Cases.codemodName kase;
     caseElement_children := children |}.

(** The comparators handed to [Array.prototype.sort]; they are imported
    from modules that are not among the sources. *)
Class Comparators := {
  compareCaseElements : CaseElement -> CaseElement -> Z;
  compareFileElements : FileElement -> FileElement -> Z;
  compareJobElements : JobElement -> JobElement -> Z;
}.

(** [Array.prototype.sort(compare)]: a stable sort; an element goes in
    front of the first one that compares greater. *)
Fixpoint insertSorted {A} (compare : A -> A -> Z) (x : A) (l : list A) : list A :=
  match l with
  | [] => [x]
  | y :: l' =>
      if (0 <? compare y x)%Z then x :: y :: l'
      else y :: insertSorted compare x l'
  end.

Definition sort {A} (compare : A -> A -> Z) (l : list A) : list A :=
  foldl (fun acc x => insertSorted compare x acc) [] l.

(** [fsPath.replace(rootPath, '')]: the first occurrence is removed. *)
Fixpoint removeFirst (pattern s : string) : string :=
  if String.prefix pattern s then
    String.substring (String.length pattern) (String.length s - String.length pattern) s
  else
    match s with
    | EmptyString => EmptyString
    | String c s' => String c (removeFirst pattern s')
    end.

(** [Set<Uri>.add]: a JavaScript set of objects holds an object once, and
    two [Uri] objects with the same text are two members. *)
Definition uriSet_add (uri : Uri) (uriSet : list Uri) : list Uri :=
  if bool_decide (uri_ref uri ∈ uri_ref <$> uriSet) then uriSet
  else uriSet ++ [uri].

Definition newUriKinds : list JobKind :=
  [createFile; moveFile; moveAndRewriteFile; copyFile].

Definition oldUriKinds : list JobKind := [rewriteFile; deleteFile].

(** The body of the loop that fills [uriSet]. *)
Definition addTargetUris (uriSet : list Uri) (job : Job) : list Uri :=
  let uriSet1 :=
    match newUri job with
    | Some uri =>
        if bool_decide (kind job ∈ newUriKinds) then uriSet_add uri uriSet
        else uriSet
    | None => uriSet
    end in
  match oldUri job with
  | Some uri =>
      if bool_decide (kind job ∈ oldUriKinds) then uriSet_add uri uriSet1
      else uriSet1
  | None => uriSet1
  end.

(** The target uri of a job: its [newUri] for the kinds that add
    [newUri], its [oldUri] for the kinds that add [oldUri]. *)
Definition targetUri (job : Job) : option Uri :=
  if bool_decide (kind job ∈ newUriKinds) then newUri job
  else if bool_decide (kind job ∈ oldUriKinds) then oldUri job
  else None.

(** [Array.from(uriSet)] after the loop. *)
Definition uris (jobs : list Job) : list Uri := foldl addTargetUris [] jobs.

(** The predicate of [jobs.filter] under a file element. *)
Definition concerns (uri : Uri) (job : Job) : bool :=
  match newUri job with
  | Some u => bool_decide (uri_toString u = uri_toString uri)
  | None => false
  end
  || match oldUri job with
     | Some u => bool_decide (uri_toString u = uri_toString uri)
     | None => false
     end.

(** The jobs of a case that resolve in [jobMap], in the order of
    [jobHashes]. *)
Definition jobsOf (jobMap : gmap JobHash Job) (kase : Cases.CaseWithJobHashes)
  : list Job :=
  omap (fun jobHash => jobMap !! jobHash) (Cases.jobHashes kase).

(** The file level before the builders run: each uri of the set with the
    jobs filtered under it. *)
Definition fileGroups (jobs : list Job) : list (Uri * list Job) :=
  (fun uri => (uri, List.filter (concerns uri) jobs)) <$> uris jobs.

Definition fileElements (rootPath : string) (caseHash : CaseHash)
  (jobs : list Job) : list FileElement :=
  (fun g : Uri * list Job =>
     buildFileElement caseHash (removeFirst rootPath (fsPath g.1))
       ((fun job => buildJobElement job rootPath) <$> g.2))
  <$> fileGroups jobs.

Definition later (latestJob : option Job) (job : Job) : option Job :=
  match latestJob with
  | None => Some job
  | Some l => if (createdAt l <? createdAt job)%Z then Some job else latestJob
  end.

Definition unsortedCaseElements (rootPath : string)
  (casesWithJobHashes : list Cases.CaseWithJobHashes)
  (jobMap : gmap JobHash Job) : list CaseElement :=
  (fun kase =>
     buildCaseElement kase
       (fileElements rootPath (Cases.hash kase) (jobsOf jobMap kase)))
  <$> casesWithJobHashes.

Definition sortChildren `{Comparators} (caseElement : CaseElement) : CaseElement :=
  {| caseElement_hash := caseElement_hash caseElement;
     caseElement_label := caseElement_label caseElement;
     caseElement_children :=
       (fun fileElement =>
          {| fileElement_caseHash := fileElement_caseHash fileElement;
             fileElement_label := fileElement_label fileElement;
             fileElement_children :=
               sort compareJobElements (fileElement_children fileElement) |})
       <$> sort compareFileElements (caseElement_children caseElement) |}.

Definition __buildCaseElementsAndLatestJob `{Comparators} (rootPath : string)
  (casesWithJobHashes : list Cases.CaseWithJobHashes)
  (jobMap : gmap JobHash Job) : list CaseElement * option Job :=
  let latestJob :=
    foldl (fun latestJob kase => foldl later latestJob (jobsOf jobMap kase))
      None casesWithJobHashes in
  let sortedCaseElements :=
    sortChildren
    <$> sort compareCaseElements
          (unsortedCaseElements rootPath casesWithJobHashes jobMap) in
  (sortedCaseElements, latestJob).

(** *** The tree map and case selection *)

Record CaseTreeNode := {
  id : CaseHash;
  iconName : string;
  label : string;
  caseApplied : bool;
}.

Inductive WebviewMessage :=
| setView (nodes : option (list CaseTreeNode))
| selectCase (node : CaseTreeNode).

Record WebviewView := { posted : list WebviewMessage }.

Record Provider := {
  __view : option WebviewView;
  __treeMap : gmap CaseHash CaseTreeNode;
}.

Definition __postMessage (m : WebviewMessage) (p : Provider) : Provider :=
  match __view p with
  | None => p
  | Some v =>
      {| __view := Some {| posted := posted v ++ [m] |};
         __treeMap := __treeMap p |}
  end.

Definition __selectCase (hash : CaseHash) (p : Provider) : Provider :=
  match __treeMap p !! hash with
  | None => p
  | Some node => __postMessage (selectCase node) p
  end.

Definition __buildCaseTree (element : CaseElement) (p : Provider)
  : CaseTreeNode * Provider :=
  let mappedNode :=
    {| id := caseElement_hash element;
       iconName := "case.svg";
       label := caseElement_label element;
       caseApplied := false |} in
  (mappedNode,
   {| __view := __view p;
      __treeMap := <[caseElement_hash element := mappedNode]> (__treeMap p) |}).

(** [__onUpdateElementsMessage], given what the case manager and the job
    manager answer: the cases, the job map built from them, and the hash of
    the new case. *)
Definition __onUpdateElementsMessage `{Comparators} (rootPath : string)
  (casesWithJobHashes : list Cases.CaseWithJobHashes)
  (jobMap : gmap JobHash Job) (newCaseHash : option CaseHash)
  (p : Provider) : Provider :=
  let caseElements :=
    (__buildCaseElementsAndLatestJob rootPath casesWithJobHashes jobMap).1 in
  let '(caseNodes, p1) :=
    foldl (fun (acc : list CaseTreeNode * Provider) element =>
             let '(node, q') := __buildCaseTree element acc.2 in
             ((acc.1 ++ [node])%list, q'))
      ([], p) caseElements in
  let p2 :=
    __postMessage
      (setView (if bool_decide (0 < length caseNodes)%nat
                then Some caseNodes else None)) p1 in
  match newCaseHash with
  | Some h => __selectCase h p2
  | None => p2
  end.

(** One run of [__onUpdateElementsMessage]: what the workspace, the case
    manager and the job manager answer when it runs. *)
Record Update := {
  update_rootPath : string;
  update_cases : list Cases.CaseWithJobHashes;
  update_jobMap : gmap JobHash Job;
  update_newCaseHash : option CaseHash;
}.

Definition onUpdate `{Comparators} (p : Provider) (u : Update) : Provider :=
  __onUpdateElementsMessage (update_rootPath u) (update_cases u)
    (update_jobMap u) (update_newCaseHash u) p.

(** The provider after a series of updates, oldest first. *)
Definition updates `{Comparators} (us : list Update) (p : Provider) : Provider :=
  foldl onUpdate p us.

(** The provider as constructed ([__treeMap = new Map()]), its view
    resolved. *)
Definition resolved : Provider :=
  {| __view := Some {| posted := [] |}; __treeMap := ∅ |}.

(** *** The job map

    [__buildJobMap], given what [jobManager.getJob] answers: the jobs the
    cases refer to, each filed under its own hash. *)
Definition __buildJobMap (getJob : JobHash -> option Job)
  (casesWithJobHashes : list Cases.CaseWithJobHashes) : gmap JobHash Job :=
  foldl (fun (map : gmap JobHash Job) jobHash =>
           match getJob jobHash with
           | None => map
           | Some job => <[hash job := job]> map
           end)
    ∅ (casesWithJobHashes ≫= Cases.jobHashes).

(** The jobs the two loops of [__buildCaseElementsAndLatestJob] meet, in
    the order they meet them. *)
Definition jobsMet (jobMap : gmap JobHash Job)
  (casesWithJobHashes : list Cases.CaseWithJobHashes) : list Job :=
  casesWithJobHashes ≫= jobsOf jobMap.

(** Comparators under which all elements compare equal: the stable sort
    keeps them in the order they were built. *)
Definition keepOrder : Comparators :=
  {| compareCaseElements := fun _ _ => 0%Z;
     compareFileElements := fun _ _ => 0%Z;
     compareJobElements := fun _ _ => 0%Z |}.

(** *** Two runs of interest

    A codemod set that rewrites [a.ts] twice: the two jobs carry two [Uri]
    objects for the same file.  And a run that produced no job. *)

Definition firstRewrite : Job :=
  {| hash := "job-1";
     kind := rewriteFile;
     oldUri := Some {| uri_ref := 1; uri_toString := "file:///repo/a.ts"; fsPath := "/repo/a.ts" |};
     newUri := None;
     newContentText := Some "first";
     createdAt := 1 |}.

Definition secondRewrite : Job :=
  {| hash := "job-2";
     kind := rewriteFile;
     oldUri := Some {| uri_ref := 2; uri_toString := "file:///repo/a.ts"; fsPath := "/repo/a.ts" |};
     newUri := None;
     newContentText := Some "second";
     createdAt := 2 |}.

Definition twoRewrites : Cases.CaseWithJobHashes :=
  {| Cases.hash := "case-1";
     Cases.codemodName := "rename-foo";
     Cases.createdAt := 0;
     Cases.path := "/repo";
     Cases.jobHashes := ["job-1"; "job-2"] |}.

Definition twoRewritesJobMap : gmap JobHash Job :=
  {[ "job-1" := firstRewrite; "job-2" := secondRewrite ]}.

Definition emptyRun : Cases.CaseWithJobHashes :=
  {| Cases.hash := "case-0";
     Cases.codemodName := "rename-foo";
     Cases.createdAt := 0;
     Cases.path := "/repo";
     Cases.jobHashes := [] |}.

(** A case that is listed by one update and by none after it: the first
    update lists [twoRewrites], the second lists no case. *)
Definition listedThenCleared : list Update :=
  [ {| update_rootPath := "/repo"; update_cases := [twoRewrites];
       update_jobMap := ∅; update_newCaseHash := None |};
    {| update_rootPath := "/repo"; update_cases := [];
       update_jobMap := ∅; update_newCaseHash := None |} ].

(** The node [__buildCaseTree] makes for [twoRewrites]. *)
Definition twoRewritesNode : CaseTreeNode :=
  {| id := "case-1"; iconName := "case.svg";
     label := caseElement_label (buildCaseElement twoRewrites []);
     caseApplied := false |}.

End CampaignManagerProvider.

(** ** Codecs imported from modules that are not among the sources

    [caseHashCodec] and [_explorerNodeHashDigestCodec] refine [t.string]:
    what they accept beyond being a string is left open. *)

Class HashCodecs := {
  isCaseHash : string -> bool;
  isExplorerNodeHashDigest : string -> bool;
}.

Definition Decoder (A : Type) : Type := unknown -> option A.

Definition t_boolean : Decoder bool :=
  fun u => match u with UBoolean b => Some b | _ => None end.

Definition branded (accepts : string -> bool) : Decoder string :=
  fun u =>
    match u with
    | UString s => if accepts s then Some s else None
    | _ => None
    end.

Definition caseHashCodec `{HashCodecs} : Decoder CaseHash := branded isCaseHash.

Definition _explorerNodeHashDigestCodec `{HashCodecs}
  : Decoder ExplorerNodeHashDigest := branded isExplorerNodeHashDigest.

(** ** The commands registered by [activate] *)

Module Extension.

(** What the commands read of the explorer tree. *)
Record ExplorerTree := {
  selectedJobHashes : list JobHash;
}.

(** The collaborators of the commands.  The job manager acts on the store
    and on the workspace files; it may throw, which is the [Some message]
    of its answer. *)
Class Collaborators := {
  report : unknown -> string;
  workspaceFolder : string;
  selectExplorerTree : RootState -> string -> option ExplorerTree;
  acceptJobs : gset JobHash -> RootState * gmap string string ->
               RootState * gmap string string * option string;
  deleteJobs : list JobHash -> RootState * gmap string string ->
               RootState * gmap string string * option string;
}.

(** A call on the job manager, from the world's point of view. *)
Definition callJobManager
  (f : RootState * gmap string string ->
       RootState * gmap string string * option string)
  (w : World) : World * Completion :=
  let '(s, fs, thrown) := f (store w, files w) in
  ({| store := s; files := fs; trace := trace w |},
   match thrown with Some message => Throw message | None => Normal end).

Section Commands.
Context `{HashCodecs} `{Collaborators}.

(** The [try] block of
    [intuita.sourceControl.saveStagedJobsToTheFileSystem]. *)
Definition saveStagedJobsToTheFileSystem_try (arg0 : unknown) (w : World)
  : World * Completion :=
  let w := dispatch (setApplySelectedInProgress true) w in
  match caseHashCodec arg0 with
  | None => (w, Throw (report arg0))
  | Some caseHashDigest =>
      let state := store w in
      if bool_decide (Some caseHashDigest <> selectedCaseHash state) then
        (w, Return)
      else
        match selectExplorerTree state workspaceFolder with
        | None => (dispatch (setApplySelectedInProgress false) w, Return)
        | Some tree =>
            let jobHashes : gset JobHash := list_to_set (selectedJobHashes tree) in
            match callJobManager (acceptJobs jobHashes) (emit (AcceptJobs jobHashes) w) with
            | (w, Normal) =>
                let w := dispatch (clearSelectedExplorerNodes caseHashDigest) w in
                let w := dispatch (clearIndeterminateExplorerNodes caseHashDigest) w in
                (emit (ExecuteCommand "workbench.view.scm") w, Normal)
            | (w, c) => (w, c)
            end
        end
  end.

(** The command with its [catch] and [finally]. *)
Definition saveStagedJobsToTheFileSystem (arg0 : unknown) (w : World) : World :=
  let '(w, c) := saveStagedJobsToTheFileSystem_try arg0 w in
  let w :=
    match c with
    | Throw message =>
        emit (ShowErrorMessage message)
          (emit (SendError "intuita.sourceControl.saveStagedJobsToTheFileSystem") w)
    | _ => w
    end in
  dispatch (setApplySelectedInProgress false) w.

(** The [try] block of [intuita.discardJobs]. *)
Definition discardJobs_try (arg0 : unknown) (w : World) : World * Completion :=
  match caseHashCodec arg0 with
  | None => (w, Throw (report arg0))
  | Some caseHashDigest =>
      let state := store w in
      if bool_decide (Some caseHashDigest <> selectedCaseHash state) then
        (w, Return)
      else
        match selectExplorerTree state workspaceFolder with
        | None => (w, Return)
        | Some tree =>
            match callJobManager (deleteJobs (selectedJobHashes tree))
                    (emit (DeleteJobs (selectedJobHashes tree)) w) with
            | (w, Normal) =>
                let w := dispatch (clearSelectedExplorerNodes caseHashDigest) w in
                let w := dispatch (clearIndeterminateExplorerNodes caseHashDigest) w in
                (w, Normal)
            | (w, c) => (w, c)
            end
        end
  end.

Definition discardJobs (arg0 : unknown) (w : World) : World :=
  let '(w, c) := discardJobs_try arg0 w in
  match c with
  | Throw message =>
      emit (SendError "intuita.discardJobs") (emit (ShowErrorMessage message) w)
  | _ => w
  end.

End Commands.

(** The calls on the job manager recorded in a trace. *)
Definition isJobManagerCall (e : Effect) : bool :=
  match e with
  | AcceptJobs _ | DeleteJobs _ => true
  | _ => false
  end.

Definition jobManagerCalls (w : World) : list Effect :=
  List.filter isJobManagerCall (trace w).

(** What applying the selection promises of one invocation with the hash
    of the selected case: the job manager is asked once more, to accept
    exactly the selected job hashes of the tree, and the selected and
    indeterminate nodes of the case are empty afterwards. *)
Definition appliesSelection `{HashCodecs} `{Collaborators}
  (arg0 : unknown) (w : World) : Prop :=
  forall h,
    caseHashCodec arg0 = Some h ->
    selectedCaseHash (store w) = Some h ->
    exists tree,
      selectExplorerTree (reducer (setApplySelectedInProgress true) (store w))
        workspaceFolder = Some tree /\
      jobManagerCalls (saveStagedJobsToTheFileSystem arg0 w)
        = jobManagerCalls w ++ [AcceptJobs (list_to_set (selectedJobHashes tree))] /\
      nodesOf (selectedExplorerNodes (store (saveStagedJobsToTheFileSystem arg0 w))) h = [] /\
      nodesOf (indeterminateExplorerNodes (store (saveStagedJobsToTheFileSystem arg0 w))) h = [].

End Extension.

(** ** The stores and the file service, from the spec *)

Module SpecServices.

Import Jobs.

(** Modelled from the spec: [jobManager.deleteJobs] ([components/jobManager]
    is not among the sources).  "[discard(jobHashes)] performs no filesystem
    effect; it only instructs Job Store/Case Store to drop the given
    identifiers"; a case that loses its last job is removed with it. *)
Definition dropFromCase (jobHashes : list JobHash)
  (kase : Cases.CaseWithJobHashes) : option Cases.CaseWithJobHashes :=
  let remaining :=
    List.filter (fun j => bool_decide (j ∉ jobHashes)) (Cases.jobHashes kase) in
  if bool_decide (remaining = Cases.jobHashes kase) then Some kase
  else
    match remaining with
    | [] => None
    | _ =>
        Some {| Cases.hash := Cases.hash kase;
                Cases.codemodName := Cases.codemodName kase;
                Cases.createdAt := Cases.createdAt kase;
                Cases.path := Cases.path kase;
                Cases.jobHashes := remaining |}
    end.

Definition dropJobs (jobHashes : list JobHash) (s : RootState) : RootState :=
  {| case_entities := omap (dropFromCase jobHashes) (case_entities s);
     job_entities := foldr delete (job_entities s) jobHashes;
     executionPaths := executionPaths s;
     selectedCaseHash := selectedCaseHash s;
     applySelectedInProgress := applySelectedInProgress s;
     selectedExplorerNodes := selectedExplorerNodes s;
     indeterminateExplorerNodes := indeterminateExplorerNodes s |}.

Definition deleteJobs (jobHashes : list JobHash)
  (sf : RootState * gmap string string)
  : RootState * gmap string string * option string :=
  (dropJobs jobHashes sf.1, sf.2, None).

(** Modelled from the spec: the file service ([components/fileService] is
    not among the sources).  Each job has the effect its kind implies, new
    content written before the old path is deleted or moved; a job whose
    paths are missing is a no-op. *)
Definition applyJob (job : Job) (fs : gmap string string) : gmap string string :=
  let old := uri_toString <$> oldUri job in
  let new := uri_toString <$> newUri job in
  match kind job, old, new, newContentText job with
  | createFile, _, Some n, Some c => <[n := c]> fs
  | rewriteFile, Some o, _, Some c => <[o := c]> fs
  | deleteFile, Some o, _, _ => delete o fs
  | moveFile, Some o, Some n, _ =>
      match fs !! o with
      | Some c => delete o (<[n := c]> fs)
      | None => fs
      end
  | moveAndRewriteFile, Some o, Some n, Some c => delete o (<[n := c]> fs)
  | copyFile, Some o, Some n, _ =>
      match fs !! o with
      | Some c => <[n := c]> fs
      | None => fs
      end
  | _, _, _, _ => fs
  end.

(** Modelled from the spec: [jobManager.acceptJobs].  The selected jobs
    that resolve in the job store are applied, then pruned from the
    stores. *)
Definition acceptJobs (jobHashes : gset JobHash)
  (sf : RootState * gmap string string)
  : RootState * gmap string string * option string :=
  let jobs := omap (fun j => job_entities sf.1 !! j) (elements jobHashes) in
  (dropJobs (elements jobHashes) sf.1, foldl (fun fs job => applyJob job fs) sf.2 jobs, None).

(** Modelled from the spec: [selectExplorerTree] ([selectors/] is not among
    the sources).  The tree exists for a selected case that resolves in the
    case store; its selected job hashes are the jobs of the case that
    resolve in the job store and are among the selected nodes of the case
    ([getSelectedLeaves]). *)
Definition selectExplorerTree (s : RootState) (rootPath : string)
  : option Extension.ExplorerTree :=
  match selectedCaseHash s with
  | None => None
  | Some h =>
      match case_entities s !! h with
      | None => None
      | Some kase =>
          Some {| Extension.selectedJobHashes :=
                    List.filter
                      (fun j => bool_decide (is_Some (job_entities s !! j))
                                && bool_decide (j ∈ nodesOf (selectedExplorerNodes s) h))
                      (Cases.jobHashes kase) |}
      end
  end.

(** Stand-ins for the two hash codecs: every non-empty string. *)
#[export] Instance hashCodecs : HashCodecs := {|
  isCaseHash := fun s => negb (bool_decide (s = ""));
  isExplorerNodeHashDigest := fun s => negb (bool_decide (s = ""));
|}.

#[export] Instance collaborators : Extension.Collaborators := {|
  Extension.report := fun _ => "Invalid value supplied to CaseHash";
  Extension.workspaceFolder := "/repo";
  Extension.selectExplorerTree := selectExplorerTree;
  Extension.acceptJobs := acceptJobs;
  Extension.deleteJobs := deleteJobs;
|}.

(** A store whose selected case hash no longer resolves in the case
    store, while a node of that case is still recorded as selected. *)
Definition staleSelection : World :=
  {| store :=
       {| case_entities := ∅;
          job_entities := ∅;
          executionPaths := ∅;
          selectedCaseHash := Some "case-1";
          applySelectedInProgress := false;
          selectedExplorerNodes := {[ "case-1" := ["job-1"] ]};
          indeterminateExplorerNodes := ∅ |};
     files := ∅;
     trace := [] |}.

(** The scenario of the spec: a run over [/repo] that moves [a.ts] to
    [b.ts] and rewrites [c.ts]; the move is selected. *)
Definition moveJob : Job :=
  {| hash := "job-move";
     kind := moveFile;
     oldUri := Some {| uri_ref := 1; uri_toString := "file:///repo/a.ts"; fsPath := "/repo/a.ts" |};
     newUri := Some {| uri_ref := 2; uri_toString := "file:///repo/b.ts"; fsPath := "/repo/b.ts" |};
     newContentText := None;
     createdAt := 1 |}.

Definition rewriteJob : Job :=
  {| hash := "job-rewrite";
     kind := rewriteFile;
     oldUri := Some {| uri_ref := 3; uri_toString := "file:///repo/c.ts"; fsPath := "/repo/c.ts" |};
     newUri := None;
     newContentText := Some "rewritten";
     createdAt := 2 |}.

Definition renameFoo : Cases.CaseWithJobHashes :=
  {| Cases.hash := "case-1";
     Cases.codemodName := "rename-foo";
     Cases.createdAt := 0;
     Cases.path := "/repo";
     Cases.jobHashes := ["job-move"; "job-rewrite"] |}.

Definition reviewing : World :=
  {| store :=
       {| case_entities := {[ "case-1" := renameFoo ]};
          job_entities := {[ "job-move" := moveJob; "job-rewrite" := rewriteJob ]};
          executionPaths := {[ "codemod-1" := "/repo/src" ]};
          selectedCaseHash := Some "case-1";
          applySelectedInProgress := false;
          selectedExplorerNodes := {[ "case-1" := ["job-move"] ]};
          indeterminateExplorerNodes := {[ "case-1" := ["case-1"] ]} |};
     files := {[ "file:///repo/a.ts" := "a"; "file:///repo/c.ts" := "c" ]};
     trace := [] |}.

End SpecServices.

(** ** The persisted state codec *)

Module PersistedState.

(** [withFallback(codec, a)] *)
Definition withFallback {A} (codec : Decoder A) (a : A) : unknown -> A :=
  fun u => default a (codec u).

(** [t.readonlyArray(codec)] *)
Definition t_readonlyArray {A} (codec : Decoder A) : Decoder (list A) :=
  fun u =>
    match u with
    | UArray items => mapM codec items
    | _ => None
    end.

(** [t.record(domain, codomain)]: every key has to decode with [domain]
    and every value with [codomain]. *)
Fixpoint decodeProps {A} (domain : Decoder string) (codomain : Decoder A)
  (props : list (string * unknown)) : option (gmap string A) :=
  match props with
  | [] => Some ∅
  | (k, v) :: rest =>
      match domain (UString k), codomain v, decodeProps domain codomain rest with
      | Some k', Some a, Some m => Some (<[k' := a]> m)
      | _, _, _ => None
      end
  end.

Definition t_record {A} (domain : Decoder string) (codomain : Decoder A)
  : Decoder (gmap string A) :=
  fun u =>
    match u with
    | UObject props => decodeProps domain codomain props
    | _ => None
    end.

(** The selection part of [RootState], as [persistedStateCodecNew] decodes
    it. *)
Record PersistedSelection := {
  persisted_applySelectedInProgress : bool;
  persisted_selectedExplorerNodes : gmap CaseHash (list ExplorerNodeHashDigest);
  persisted_indeterminateExplorerNodes : gmap CaseHash (list ExplorerNodeHashDigest);
}.

Section Codec.
Context `{HashCodecs}.

(** [t.record(caseHashCodec, t.readonlyArray(_explorerNodeHashDigestCodec))] *)
Definition explorerNodesCodec
  : Decoder (gmap CaseHash (list ExplorerNodeHashDigest)) :=
  t_record caseHashCodec (t_readonlyArray _explorerNodeHashDigestCodec).

(** [persistedStateCodecNew], restricted to the selection properties.  It
    is a type codec all of whose properties have a fallback: an object
    decodes, property by property, whatever its other properties hold. *)
Definition persistedStateCodecNew : Decoder PersistedSelection :=
  fun u =>
    match u with
    | UObject props =>
        Some
          {| persisted_applySelectedInProgress :=
               withFallback t_boolean false (getProp "applySelectedInProgress" props);
             persisted_selectedExplorerNodes :=
               withFallback explorerNodesCodec ∅ (getProp "selectedExplorerNodes" props);
             persisted_indeterminateExplorerNodes :=
               withFallback explorerNodesCodec ∅
                 (getProp "indeterminateExplorerNodes" props) |}
    | _ => None
    end.

End Codec.

(** The value the codec encodes a record of digests to: itself, as an
    object of arrays of strings. *)
Definition encodeExplorerNodes
  (entries : list (CaseHash * list ExplorerNodeHashDigest)) : unknown :=
  UObject ((fun e : CaseHash * list ExplorerNodeHashDigest =>
              (e.1, UArray (UString <$> e.2))) <$> entries).

(** An entry the two hash codecs accept. *)
Definition validEntry `{HashCodecs}
  (e : CaseHash * list ExplorerNodeHashDigest) : Prop :=
  isCaseHash e.1 = true /\ Forall (fun d => isExplorerNodeHashDigest d = true) e.2.

(** The reading of "ancestor states are never stored directly": no
    persisted state holds an indeterminate node. *)
Definition noStoredIndeterminate `{HashCodecs} (u : unknown) : Prop :=
  forall p h,
    persistedStateCodecNew u = Some p ->
    nodesOf (persisted_indeterminateExplorerNodes p) h = [].

End PersistedState.

(** ** The workspace state codec and the codemod runs tab *)

Module WorkspaceState.

Definition t_string : Decoder string :=
  fun u => match u with UString s => Some s | _ => None end.

Definition t_number : Decoder Z :=
  fun u => match u with UNumber n => Some n | _ => None end.

(** [t.literal(s)] *)
Definition t_literal (s : string) : Decoder string :=
  fun u =>
    match u with
    | UString s' => if decide (s' = s) then Some s else None
    | _ => None
    end.

(** [syntheticErrorCodec]: the kind is the literal, so the message is all
    a value holds. *)
Record SyntheticError := {
  message : string;
}.

Definition syntheticErrorCodec : Decoder SyntheticError :=
  fun u =>
    match u with
    | UObject props =>
        match t_literal "syntheticError" (getProp "kind" props),
              t_string (getProp "message" props) with
        | Some _, Some m => Some {| message := m |}
        | _, _ => None
        end
    | _ => None
    end.

(** The values of [workspaceStateCodec], by their [_tag]. *)
Inductive WorkspaceStateValue :=
| Left (left : SyntheticError)
| Right (right : string)
| Both (left : SyntheticError) (right : string).

Definition tagOf (v : WorkspaceStateValue) : string :=
  match v with
  | Left _ => "Left"
  | Right _ => "Right"
  | Both _ _ => "Both"
  end.

(** [workspaceStateCodec]: a union, whose members are tried in order; each
    is an exact type codec, which reads its own properties and drops the
    others. *)
Definition workspaceStateCodec : Decoder WorkspaceStateValue :=
  fun u =>
    match u with
    | UObject props =>
        match t_literal "Left" (getProp "_tag" props),
              syntheticErrorCodec (getProp "left" props) with
        | Some _, Some e => Some (Left e)
        | _, _ =>
            match t_literal "Right" (getProp "_tag" props),
                  t_string (getProp "right" props) with
            | Some _, Some r => Some (Right r)
            | _, _ =>
                match t_literal "Both" (getProp "_tag" props),
                      syntheticErrorCodec (getProp "left" props),
                      t_string (getProp "right" props) with
                | Some _, Some e, Some r => Some (Both e r)
                | _, _, _ => None
                end
            end
        end
    | _ => None
    end.

Definition encodeSyntheticError (e : SyntheticError) : unknown :=
  UObject [("kind", UString "syntheticError"); ("message", UString (message e))].

(** What the codec encodes a value to: the object itself. *)
Definition encode (v : WorkspaceStateValue) : unknown :=
  match v with
  | Left e => UObject [("_tag", UString "Left"); ("left", encodeSyntheticError e)]
  | Right r => UObject [("_tag", UString "Right"); ("right", UString r)]
  | Both e r =>
      UObject [("_tag", UString "Both"); ("left", encodeSyntheticError e);
               ("right", UString r)]
  end.

End WorkspaceState.

Module CodemodRunsTab.

Record CodemodRunsTab := {
  resultsCollapsed : bool;
  changeExplorerCollapsed : bool;
  selectedCaseHash : option CaseHash;
  panelGroupSettings : gmap string (list Z);
}.

(** [panelGroupSettingsCodec] *)
Definition panelGroupSettingsCodec : Decoder (gmap string (list Z)) :=
  PersistedState.t_record WorkspaceState.t_string
    (PersistedState.t_readonlyArray WorkspaceState.t_number).

(** [t.union([codec, t.null])] *)
Definition orNull {A} (codec : Decoder A) : Decoder (option A) :=
  fun u =>
    match codec u with
    | Some a => Some (Some a)
    | None => match u with UNull => Some None | _ => None end
    end.

Definition fallbackTab : CodemodRunsTab :=
  {| resultsCollapsed := false;
     changeExplorerCollapsed := false;
     selectedCaseHash := None;
     panelGroupSettings := {[ "0,0" := [50%Z; 50%Z] ]} |}.

(** The [codemodRunsTab] property of [persistedStateCodecNew]: a type
    codec, two of whose properties have a fallback of their own, under a
    fallback for the whole tab. *)
Definition codemodRunsTabCodec `{HashCodecs} : unknown -> CodemodRunsTab :=
  PersistedState.withFallback
    (fun u =>
       match u with
       | UObject props =>
           match orNull caseHashCodec (getProp "selectedCaseHash" props),
                 panelGroupSettingsCodec (getProp "panelGroupSettings" props) with
           | Some selected, Some settings =>
               Some
                 {| resultsCollapsed :=
                      PersistedState.withFallback t_boolean false
                        (getProp "resultsCollapsed" props);
                    changeExplorerCollapsed :=
                      PersistedState.withFallback t_boolean false
                        (getProp "changeExplorerCollapsed" props);
                    selectedCaseHash := selected;
                    panelGroupSettings := settings |}
           | _, _ => None
           end
       | _ => None
       end)
    fallbackTab.

End CodemodRunsTab.

(** ** The selection tree *)

Module SelectionTree.

Inductive SelectionState :=
| selected
| unselected
| indeterminate.

#[export] Instance SelectionState_eq_dec : EqDecision SelectionState.
Proof. solve_decision. Defined.

Record FileNode := {
  fileId : ExplorerNodeHashDigest;
  jobs : list ExplorerNodeHashDigest;
}.

Record CaseNode := {
  caseId : CaseHash;
  fileNodes : list FileNode;
}.

(** The tree over a case element of the campaign manager: case, files,
    jobs. *)
Definition ofCaseElement (e : CampaignManagerProvider.CaseElement) : CaseNode :=
  {| caseId := CampaignManagerProvider.caseElement_hash e;
     fileNodes :=
       (fun f =>
          {| fileId := CampaignManagerProvider.fileElement_label f;
             jobs :=
               (fun j => Jobs.hash (CampaignManagerProvider.jobElement_job j))
               <$> CampaignManagerProvider.fileElement_children f |})
       <$> CampaignManagerProvider.caseElement_children e |}.

Definition leaves (t : CaseNode) : list ExplorerNodeHashDigest :=
  concat (jobs <$> fileNodes t).

(** The case node and the file nodes. *)
Definition ancestors (t : CaseNode) : list ExplorerNodeHashDigest :=
  caseId t :: (fileId <$> fileNodes t).

(** Modelled from the spec: the tree is case, distinct target file, job
    ([selectExplorerTree] is not among the sources).  The leaf descendants
    of a node, a leaf being its own; [None] for a digest that names no node
    of the tree. *)
Definition leavesOf (t : CaseNode) (n : ExplorerNodeHashDigest)
  : option (list ExplorerNodeHashDigest) :=
  if bool_decide (n = caseId t) then Some (leaves t)
  else
    match List.find (fun node => bool_decide (fileId node = n)) (fileNodes t) with
    | Some node => Some (jobs node)
    | None => if bool_decide (n ∈ leaves t) then Some [n] else None
    end.

(** The selection of one case as the store keeps it: the digests of its
    selected nodes and of its indeterminate nodes, the two records
    [selectedExplorerNodes] and [indeterminateExplorerNodes] of
    [persistedStateCodecNew] read at the hash of the case. *)
Record Selection := {
  selectedNodes : list ExplorerNodeHashDigest;
  indeterminateNodes : list ExplorerNodeHashDigest;
}.

Definition selectionOf (s : RootState) (h : CaseHash) : Selection :=
  {| selectedNodes := nodesOf (selectedExplorerNodes s) h;
     indeterminateNodes := nodesOf (indeterminateExplorerNodes s) h |}.

Definition setSelection (h : CaseHash) (sel : Selection) (s : RootState) : RootState :=
  {| case_entities := case_entities s;
     job_entities := job_entities s;
     executionPaths := executionPaths s;
     selectedCaseHash := selectedCaseHash s;
     applySelectedInProgress := applySelectedInProgress s;
     selectedExplorerNodes := <[h := selectedNodes sel]> (selectedExplorerNodes s);
     indeterminateExplorerNodes :=
       <[h := indeterminateNodes sel]> (indeterminateExplorerNodes s) |}.

(** The state the two records give a node: selected when its digest is
    among the selected nodes, indeterminate when it is among the
    indeterminate ones, unselected otherwise. *)
Definition stateOf (sel : Selection) (n : ExplorerNodeHashDigest) : SelectionState :=
  if bool_decide (n ∈ selectedNodes sel) then selected
  else if bool_decide (n ∈ indeterminateNodes sel) then indeterminate
  else unselected.

Definition addNode (n : ExplorerNodeHashDigest) (l : list ExplorerNodeHashDigest)
  : list ExplorerNodeHashDigest :=
  if bool_decide (n ∈ l) then l else l ++ [n].

Definition removeNode (n : ExplorerNodeHashDigest) (l : list ExplorerNodeHashDigest)
  : list ExplorerNodeHashDigest :=
  filter (fun x => x <> n) l.

Definition setState (n : ExplorerNodeHashDigest) (st : SelectionState)
  (sel : Selection) : Selection :=
  match st with
  | selected =>
      {| selectedNodes := addNode n (selectedNodes sel);
         indeterminateNodes := removeNode n (indeterminateNodes sel) |}
  | indeterminate =>
      {| selectedNodes := removeNode n (selectedNodes sel);
         indeterminateNodes := addNode n (indeterminateNodes sel) |}
  | unselected =>
      {| selectedNodes := removeNode n (selectedNodes sel);
         indeterminateNodes := removeNode n (indeterminateNodes sel) |}
  end.

Definition allSelected (states : list SelectionState) : bool :=
  forallb (fun st => bool_decide (st = selected)) states.

Definition noneSelected (states : list SelectionState) : bool :=
  forallb (fun st => bool_decide (st = unselected)) states.

(** Modelled from the spec: the state of a node whose children have the
    given states, selected when all are, unselected when none is selected
    or indeterminate, indeterminate otherwise. *)
Definition summary (states : list SelectionState) : SelectionState :=
  if allSelected states then selected
  else if noneSelected states then unselected
  else indeterminate.

Definition opposite (st : SelectionState) : SelectionState :=
  match st with
  | selected => unselected
  | _ => selected
  end.

(** Whether a file node has one of the given leaves among its jobs. *)
Definition touches (ls : list ExplorerNodeHashDigest) (f : FileNode) : bool :=
  existsb (fun j => bool_decide (j ∈ ls)) (jobs f).

Definition refreshFile (ls : list ExplorerNodeHashDigest) (sel : Selection)
  (f : FileNode) : Selection :=
  if touches ls f
  then setState (fileId f) (summary (stateOf sel <$> jobs f)) sel
  else sel.

Definition refreshCase (t : CaseNode) (sel : Selection) : Selection :=
  setState (caseId t)
    (summary ((fun f => stateOf sel (fileId f)) <$> fileNodes t)) sel.

(** Modelled from the spec: the selection tree ([selectExplorerTree] and
    the [flipSelectedExplorerNode] reducer are not among the sources; the
    two records the reducer writes are, in [persistedStateCodecNew]).
    [toggle] on a leaf flips it; on an ancestor it sets all leaf
    descendants to the opposite of the ancestor's state, an indeterminate
    ancestor selecting all of them.  The states of the ancestors are
    maintained incrementally: after the leaves are set, the file nodes
    above a changed leaf are recomputed from their jobs, then the case
    node from its file nodes; no other node is visited.  A digest that
    names no node of the tree leaves the selection alone. *)
Definition toggle (t : CaseNode) (sel : Selection) (n : ExplorerNodeHashDigest)
  : Selection :=
  match leavesOf t n with
  | None => sel
  | Some ls =>
      let target := opposite (stateOf sel n) in
      let sel1 := foldr (fun j => setState j target) sel ls in
      let sel2 := foldl (refreshFile ls) sel1 (fileNodes t) in
      refreshCase t sel2
  end.

(** Modelled from the spec: the toggle as an operation on the store
    ([toggleSelection(nodeId)]); it reads and writes the two records at the
    hash of the case. *)
Definition flipSelectedExplorerNode (t : CaseNode) (n : ExplorerNodeHashDigest)
  (s : RootState) : RootState :=
  setSelection (caseId t) (toggle t (selectionOf s (caseId t)) n) s.

Definition toggles (t : CaseNode) (s : RootState) (ns : list ExplorerNodeHashDigest)
  : RootState :=
  foldl (fun s n => flipSelectedExplorerNode t n s) s ns.

(** Modelled from the spec: [getState(nodeId)], incrementally maintained,
    is the state the store records for the node. *)
Definition getState (t : CaseNode) (s : RootState) (n : ExplorerNodeHashDigest)
  : SelectionState :=
  stateOf (selectionOf s (caseId t)) n.

(** A tree derived from the jobs of a case: the digests of the case node
    and of the file nodes are distinct, none of them is the digest of a
    job, and every file node has a job. *)
Record wellFormed (t : CaseNode) : Prop := {
  wf_ancestors : NoDup (ancestors t);
  wf_levels : forall a, a ∈ ancestors t -> a ∉ leaves t;
  wf_files : Forall (fun f => jobs f <> []) (fileNodes t);
}.

(** What the toggles maintain: a leaf is never indeterminate, a file node
    has the state its jobs give it, and the case node the state the
    leaves of the tree give it. *)
Record Inv (t : CaseNode) (sel : Selection) : Prop := {
  inv_leaves : forall j, j ∈ leaves t -> stateOf sel j <> indeterminate;
  inv_files : forall f, f ∈ fileNodes t ->
                stateOf sel (fileId f) = summary (stateOf sel <$> jobs f);
  inv_case : leaves t <> [] ->
             stateOf sel (caseId t) = summary (stateOf sel <$> leaves t);
}.

(** The tree of the spec's scenario, as the campaign manager builds its
    case element: the move under [/b.ts], the rewrite under [/c.ts]. *)
Definition renameFooTree : CaseNode :=
  ofCaseElement
    (CampaignManagerProvider.buildCaseElement SpecServices.renameFoo
       (CampaignManagerProvider.fileElements "/repo" "case-1"
          [SpecServices.moveJob; SpecServices.rewriteJob])).

(** The store of the review once the selection of the case is cleared,
    as both commands leave it. *)
Definition cleared : RootState :=
  reducer (clearIndeterminateExplorerNodes "case-1")
    (reducer (clearSelectedExplorerNodes "case-1") (store SpecServices.reviewing)).

End SelectionTree.

(** ** The execution queue *)

Module ExecutionQueue.

Inductive RequestState :=
| queued
| running
| completed
| failed
| halted.

#[global] Instance RequestState_eq_dec : EqDecision RequestState.
Proof. solve_decision. Defined.

(** A request is known by its position in the queue. *)
Inductive BusEvent :=
| caseCreated (request : nat)
| executionFailed (request : nat)
| executionProgress (request : nat) (processedFiles totalFiles : Z)
| executionHalted.

Record Queue := {
  requests : list RequestState;
  published : list BusEvent;
}.

Inductive Command :=
| enqueueRun
| startNext
| engineProgress (processedFiles totalFiles : Z)
| engineCompleted
| engineFailed
| haltExecution.

Definition theRunning (q : Queue) : option nat :=
  fst <$> list_find (fun s => s = running) (requests q).

Definition haltRequest (s : RequestState) : RequestState :=
  match s with
  | queued | running => halted
  | _ => s
  end.

(** Modelled from the spec: the execution queue ([EngineService] is not
    among the sources).  Requests run one at a time in FIFO order; a
    completed run publishes [caseCreated], a failed one an error record;
    [halt] moves the running request and every queued one to [halted];
    what the engine reports when nothing is running is discarded. *)
Definition step (q : Queue) (c : Command) : Queue :=
  match c with
  | enqueueRun =>
      {| requests := requests q ++ [queued]; published := published q |}
  | startNext =>
      match theRunning q, list_find (fun s => s = queued) (requests q) with
      | None, Some (i, _) =>
          {| requests := <[i := running]> (requests q); published := published q |}
      | _, _ => q
      end
  | engineProgress processed total =>
      match theRunning q with
      | Some i =>
          {| requests := requests q;
             published := published q ++ [executionProgress i processed total] |}
      | None => q
      end
  | engineCompleted =>
      match theRunning q with
      | Some i =>
          {| requests := <[i := completed]> (requests q);
             published := published q ++ [caseCreated i] |}
      | None => q
      end
  | engineFailed =>
      match theRunning q with
      | Some i =>
          {| requests := <[i := failed]> (requests q);
             published := published q ++ [executionFailed i] |}
      | None => q
      end
  | haltExecution =>
      {| requests := haltRequest <$> requests q;
         published := published q ++ [executionHalted] |}
  end.

Definition run (q : Queue) (cs : list Command) : Queue := foldl step q cs.

(** What has been published since [q] by the time of [q']. *)
Definition publishedSince (q q' : Queue) : list BusEvent :=
  drop (length (published q)) (published q').

End ExecutionQueue.

(** ** The list offered by [intuita.executeCodemodWithinPath] *)

Module ExecuteCodemodWithinPath.

(** What the command reads of a codemod entry. *)
Record CodemodEntry := {
  hashDigest : CodemodHash;
  name : string;
  kind : string;
}.

(** [Array.prototype.indexOf] *)
Definition indexOf (l : list string) (x : string) : Z :=
  match list_find (fun y => y = x) l with
  | Some (i, _) => Z.of_nat i
  | None => (-1)%Z
  end.

(** [Array.prototype.includes] *)
Definition includes (l : list string) (x : string) : bool := bool_decide (x ∈ l).

(** The recent codemods, sorted from the least to the most recent. *)
Definition top5RecentCodemods (top5RecentCodemodHashes : list CodemodHash)
  (codemodList : list CodemodEntry) : list CodemodEntry :=
  CampaignManagerProvider.sort
    (fun a b => (indexOf top5RecentCodemodHashes (hashDigest a)
                 - indexOf top5RecentCodemodHashes (hashDigest b))%Z)
    (List.filter (fun codemod => includes top5RecentCodemodHashes (hashDigest codemod))
       codemodList).

Definition sortedCodemodList (top5RecentCodemodHashes : list CodemodHash)
  (codemodList : list CodemodEntry) : list CodemodEntry :=
  reverse (top5RecentCodemods top5RecentCodemodHashes codemodList)
  ++ List.filter
       (fun codemod => negb (includes top5RecentCodemodHashes (hashDigest codemod)))
       codemodList.

Record QuickPickItem := {
  label : string;
  description : option string;
}.

(** The items handed to [showQuickPick]. *)
Definition quickPickItems (top5RecentCodemodHashes : list CodemodHash)
  (codemodList : list CodemodEntry) : list QuickPickItem :=
  (fun codemod =>
     {| label := name codemod;
        description :=
          if includes top5RecentCodemodHashes (hashDigest codemod)
          then Some "(recent)" else None |})
  <$> sortedCodemodList top5RecentCodemodHashes codemodList.

(** The entry the command runs for a picked item; without one it throws
    "Codemod is not selected". *)
Definition codemodEntry (top5RecentCodemodHashes : list CodemodHash)
  (codemodList : list CodemodEntry) (quickPickItem : QuickPickItem)
  : option CodemodEntry :=
  List.find (fun codemod => bool_decide (name codemod = label quickPickItem))
    (sortedCodemodList top5RecentCodemodHashes codemodList).

End ExecuteCodemodWithinPath.

(** ** The classifier: the node of a diagnostic's range *)

Module Classifier.

Record IntuitaSimpleRange := {
  range_start : Z;
  range_end : Z;
}.

(** A [ts.Node] as [getNode] reads it: [getFullStart()], [getEnd()] and
    [getChildren()]. *)
Inductive Node :=
| mkNode (fullStart : Z) (nodeEnd : Z) (children : list Node).

Definition getFullStart (node : Node) : Z :=
  match node with mkNode fullStart _ _ => fullStart end.

Definition getEnd (node : Node) : Z :=
  match node with mkNode _ nodeEnd _ => nodeEnd end.

Definition getChildren (node : Node) : list Node :=
  match node with mkNode _ _ children => children end.

Definition isRangeWithinNode (node : Node) (range : IntuitaSimpleRange) : bool :=
  bool_decide (getFullStart node <= range_start range)%Z
  && bool_decide (getEnd node >= range_end range)%Z.

(** [for (const child of children) { const result = f(child); if (result
    !== null) return result; } return null;] *)
Definition firstResult {A B : Type} (f : A -> option B) : list A -> option B :=
  fix loop (children : list A) : option B :=
    match children with
    | [] => None
    | child :: rest =>
        match f child with
        | Some result => Some result
        | None => loop rest
        end
    end.

Fixpoint getNode (node : Node) (range : IntuitaSimpleRange) : option Node :=
  if negb (isRangeWithinNode node range) then None
  else
    match node with
    | mkNode _ _ [] => Some node
    | mkNode _ _ children => firstResult (fun child => getNode child range) children
    end.

(** [Reaches range node r]: [r] is [node] or lies below it, and [r], [node]
    and every node between them hold the range. *)
Inductive Reaches (range : IntuitaSimpleRange) : Node -> Node -> Prop :=
| reaches_here node :
    isRangeWithinNode node range = true -> Reaches range node node
| reaches_child node child r :
    isRangeWithinNode node range = true ->
    child ∈ getChildren node ->
    Reaches range child r ->
    Reaches range node r.

End Classifier.

(** * Properties *)

(** ** The store *)

Lemma nodesOf_insert_nil m h : nodesOf (<[h := []]> m) h = [].
Proof. unfold nodesOf. by rewrite lookup_insert_eq. Qed.

(** ** MainViewProvider.updateExecutionPath *)

Section UpdateExecutionPath.
Import MainViewProvider.

Variable stat : string -> bool.
Variables (path : string) (codemod : CodemodHash).
Variables (onError onWarning : option string) (fromCommand : option bool).

Let args (revert : bool) : UpdateExecutionPathArgs :=
  {| newPath := path;
     arg_codemodHash := codemod;
     errorMessage := onError;
     warningMessage := onWarning;
     revertToPrevExecutionIfInvalid := revert;
     fromVSCodeCommand := fromCommand |}.

(** C10: when the check of the new path fails and an execution path was
    persisted for the codemod, [updateExecutionPath] ends by dispatching
    [setExecutionPath] with the old path, the stored path is the old one
    afterwards, and the outcome is the same for both values of
    [revertToPrevExecutionIfInvalid]. *)
Theorem updateExecutionPath_restores_old_path
  (revert : bool) (p : Provider) (w : World) (root : Uri) (old : string) :
  __rootUri p = Some root ->
  stat path = false ->
  executionPaths (store w) !! codemod = Some old ->
  last (trace (updateExecutionPath stat (args revert) p w))
    = Some (Dispatch (setExecutionPath codemod old)) /\
  executionPaths (store (updateExecutionPath stat (args revert) p w)) !! codemod
    = Some old /\
  store (updateExecutionPath stat (args revert) p w)
    = reducer (setExecutionPath codemod old) (store w) /\
  updateExecutionPath stat (args true) p w
    = updateExecutionPath stat (args false) p w.
Proof.
  intros Hroot Hstat Hold.
  unfold updateExecutionPath, args; simpl.
  rewrite Hroot, Hstat, Hold.
  destruct revert, onError, onWarning; simpl;
    rewrite ?last_snoc, ?lookup_insert_eq; done.
Qed.

End UpdateExecutionPath.

Lemma updateExecutionPath_restores_old_path_witness :
  last (trace
          (MainViewProvider.updateExecutionPath (fun _ => false)
             {| MainViewProvider.newPath := "/repo/gone";
                MainViewProvider.arg_codemodHash := "codemod-1";
                MainViewProvider.errorMessage := Some "The path does not exist.";
                MainViewProvider.warningMessage := None;
                MainViewProvider.revertToPrevExecutionIfInvalid := false;
                MainViewProvider.fromVSCodeCommand := None |}
             {| MainViewProvider.__view := None;
                MainViewProvider.__rootUri :=
                  Some {| uri_ref := 0; uri_toString := "file:///repo"; fsPath := "/repo" |} |}
             SpecServices.reviewing))
  = Some (Dispatch (setExecutionPath "codemod-1" "/repo/src")) /\
  executionPaths
    (store
       (MainViewProvider.updateExecutionPath (fun _ => false)
          {| MainViewProvider.newPath := "/repo/gone";
             MainViewProvider.arg_codemodHash := "codemod-1";
             MainViewProvider.errorMessage := Some "The path does not exist.";
             MainViewProvider.warningMessage := None;
             MainViewProvider.revertToPrevExecutionIfInvalid := false;
             MainViewProvider.fromVSCodeCommand := None |}
          {| MainViewProvider.__view := None;
             MainViewProvider.__rootUri :=
               Some {| uri_ref := 0; uri_toString := "file:///repo"; fsPath := "/repo" |} |}
          SpecServices.reviewing)) !! "codemod-1"
  = Some "/repo/src".
Proof.
  destruct (updateExecutionPath_restores_old_path (fun _ => false)
              "/repo/gone" "codemod-1" (Some "The path does not exist.") None None false
              {| MainViewProvider.__view := None;
                 MainViewProvider.__rootUri :=
                   Some {| uri_ref := 0; uri_toString := "file:///repo"; fsPath := "/repo" |} |}
              SpecServices.reviewing
              {| uri_ref := 0; uri_toString := "file:///repo"; fsPath := "/repo" |}
              "/repo/src")
    as (Hlast & Hpath & _); [reflexivity | reflexivity | vm_compute; reflexivity |].
  split; [exact Hlast | exact Hpath].
Defined.

(** ** CampaignManagerProvider.__selectCase *)

(** Selecting a case whose hash has no node in the tree map changes
    nothing: the provider, its view and what was posted to it stay as they
    were. *)
Lemma selectCase_without_node
  (hash : CaseHash) (p : CampaignManagerProvider.Provider) :
  CampaignManagerProvider.__treeMap p !! hash = None ->
  CampaignManagerProvider.__selectCase hash p = p.
Proof.
  intros Hnone. unfold CampaignManagerProvider.__selectCase. by rewrite Hnone.
Qed.

(** X8: the tree map is only ever added to: a case that had a node keeps
    it through every update, also when the case is no longer among the
    cases the update is given. *)
Lemma onUpdateElementsMessage_keeps_nodes
  `{CampaignManagerProvider.Comparators} rootPath cases jobMap newCaseHash p h :
  is_Some (CampaignManagerProvider.__treeMap p !! h) ->
  is_Some
    (CampaignManagerProvider.__treeMap
       (CampaignManagerProvider.__onUpdateElementsMessage
          rootPath cases jobMap newCaseHash p) !! h).
Proof.
  intros Hsome. unfold CampaignManagerProvider.__onUpdateElementsMessage.
  cbv zeta.
  generalize ((CampaignManagerProvider.__buildCaseElementsAndLatestJob
                 rootPath cases jobMap).1).
  intros elements.
  assert (forall acc : list CampaignManagerProvider.CaseTreeNode
                       * CampaignManagerProvider.Provider,
            is_Some (CampaignManagerProvider.__treeMap acc.2 !! h) ->
            is_Some
              (CampaignManagerProvider.__treeMap
                 (foldl
                    (fun (acc : list CampaignManagerProvider.CaseTreeNode
                                * CampaignManagerProvider.Provider) element =>
                       let '(node, q') :=
                         CampaignManagerProvider.__buildCaseTree element acc.2 in
                       ((acc.1 ++ [node])%list, q'))
                    acc elements).2 !! h)) as Hfold.
  { induction elements as [|e elements IH]; intros acc Hacc; [done|].
    simpl. apply IH. simpl.
    destruct (decide (CampaignManagerProvider.caseElement_hash e = h)) as [->|Hne].
    - rewrite lookup_insert_eq. eauto.
    - by rewrite lookup_insert_ne. }
  specialize (Hfold ([], p) Hsome).
  destruct (foldl _ ([], p) elements) as [nodes p1]. simpl in Hfold.
  assert (forall m q, CampaignManagerProvider.__treeMap
                        (CampaignManagerProvider.__postMessage m q)
                      = CampaignManagerProvider.__treeMap q) as Hpost.
  { intros m q. unfold CampaignManagerProvider.__postMessage.
    by destruct (CampaignManagerProvider.__view q). }
  destruct newCaseHash as [n|]; [|by rewrite Hpost].
  unfold CampaignManagerProvider.__selectCase.
  destruct (_ !! n); by rewrite ?Hpost.
Qed.

(** The spec's toggle treats a node that left the tree the same way. *)
Lemma toggle_absent_node_is_noop t sel n :
  SelectionTree.leavesOf t n = None -> SelectionTree.toggle t sel n = sel.
Proof. intros Hnone. unfold SelectionTree.toggle. by rewrite Hnone. Qed.

(** ** The apply and discard commands *)

Section CommandFacts.
Import Extension.
Context `{HC : HashCodecs} `{C : Collaborators}.

Lemma selectedCaseHash_setApplySelectedInProgress b s :
  selectedCaseHash (reducer (setApplySelectedInProgress b) s) = selectedCaseHash s.
Proof. reflexivity. Qed.

(** C9: with a case hash that decodes but is not the selected one, the
    apply command only raises and lowers its in-progress flag and the
    discard command does nothing at all: no job is accepted or deleted, no
    file is touched, and the selected and indeterminate nodes are as
    before. *)
Theorem commands_ignore_unselected_case
  (arg0 : unknown) (w : World) (h : CaseHash) :
  caseHashCodec arg0 = Some h ->
  selectedCaseHash (store w) <> Some h ->
  (trace (saveStagedJobsToTheFileSystem arg0 w)
     = trace w ++ [Dispatch (setApplySelectedInProgress true);
                   Dispatch (setApplySelectedInProgress false)] /\
   jobManagerCalls (saveStagedJobsToTheFileSystem arg0 w) = jobManagerCalls w /\
   files (saveStagedJobsToTheFileSystem arg0 w) = files w /\
   job_entities (store (saveStagedJobsToTheFileSystem arg0 w)) = job_entities (store w) /\
   case_entities (store (saveStagedJobsToTheFileSystem arg0 w)) = case_entities (store w) /\
   selectedExplorerNodes (store (saveStagedJobsToTheFileSystem arg0 w))
     = selectedExplorerNodes (store w) /\
   indeterminateExplorerNodes (store (saveStagedJobsToTheFileSystem arg0 w))
     = indeterminateExplorerNodes (store w)) /\
  discardJobs arg0 w = w.
Proof.
  intros Hdec Hne.
  unfold saveStagedJobsToTheFileSystem, saveStagedJobsToTheFileSystem_try,
    discardJobs, discardJobs_try.
  rewrite Hdec. simpl.
  rewrite bool_decide_true by congruence.
  split; [|done].
  unfold jobManagerCalls. simpl.
  rewrite <- app_assoc. simpl.
  rewrite List.filter_app. simpl. rewrite app_nil_r. done.
Qed.

End CommandFacts.

Section ApplySelected.
Import Extension.
Context `{HC : HashCodecs} `{C : Collaborators}.

(** C3 (amended): invoked with the hash of the selected case, when the
    explorer tree of that case exists and the job manager returns
    normally, the apply command asks the job manager exactly once more, to
    accept exactly the set of the tree's selected job hashes, and leaves
    the selected and the indeterminate nodes of the case empty. *)
Theorem saveStagedJobs_accepts_selected_jobs
  (arg0 : unknown) (w : World) (h : CaseHash) (tree : ExplorerTree)
  (s' : RootState) (fs' : gmap string string) :
  caseHashCodec arg0 = Some h ->
  selectedCaseHash (store w) = Some h ->
  selectExplorerTree (reducer (setApplySelectedInProgress true) (store w))
    workspaceFolder = Some tree ->
  acceptJobs (list_to_set (selectedJobHashes tree))
    (reducer (setApplySelectedInProgress true) (store w), files w)
    = (s', fs', None) ->
  trace (saveStagedJobsToTheFileSystem arg0 w)
    = trace w ++ [Dispatch (setApplySelectedInProgress true);
                  AcceptJobs (list_to_set (selectedJobHashes tree));
                  Dispatch (clearSelectedExplorerNodes h);
                  Dispatch (clearIndeterminateExplorerNodes h);
                  ExecuteCommand "workbench.view.scm";
                  Dispatch (setApplySelectedInProgress false)] /\
  jobManagerCalls (saveStagedJobsToTheFileSystem arg0 w)
    = jobManagerCalls w ++ [AcceptJobs (list_to_set (selectedJobHashes tree))] /\
  nodesOf (selectedExplorerNodes (store (saveStagedJobsToTheFileSystem arg0 w))) h = [] /\
  nodesOf (indeterminateExplorerNodes (store (saveStagedJobsToTheFileSystem arg0 w))) h = [] /\
  files (saveStagedJobsToTheFileSystem arg0 w) = fs'.
Proof.
  intros Hdec Hsel Htree Haccept.
  unfold saveStagedJobsToTheFileSystem, saveStagedJobsToTheFileSystem_try.
  rewrite Hdec. cbv zeta.
  change (store (dispatch (setApplySelectedInProgress true) w))
    with (reducer (setApplySelectedInProgress true) (store w)).
  rewrite selectedCaseHash_setApplySelectedInProgress, Hsel.
  rewrite bool_decide_false by (intros Hne; by apply Hne).
  rewrite Htree.
  unfold callJobManager.
  change (store (emit _ (dispatch (setApplySelectedInProgress true) w)))
    with (reducer (setApplySelectedInProgress true) (store w)).
  change (files (emit _ (dispatch (setApplySelectedInProgress true) w)))
    with (files w).
  rewrite Haccept. simpl.
  repeat split.
  - by rewrite <- !app_assoc.
  - unfold jobManagerCalls. simpl.
    rewrite !List.filter_app. simpl. by rewrite !app_nil_r.
  - apply nodesOf_insert_nil.
  - apply nodesOf_insert_nil.
Qed.

(** Without an explorer tree the command accepts nothing and clears
    nothing. *)
Lemma saveStagedJobs_no_tree (arg0 : unknown) (w : World) (h : CaseHash) :
  caseHashCodec arg0 = Some h ->
  selectedCaseHash (store w) = Some h ->
  selectExplorerTree (reducer (setApplySelectedInProgress true) (store w))
    workspaceFolder = None ->
  jobManagerCalls (saveStagedJobsToTheFileSystem arg0 w) = jobManagerCalls w /\
  selectedExplorerNodes (store (saveStagedJobsToTheFileSystem arg0 w))
    = selectedExplorerNodes (store w) /\
  indeterminateExplorerNodes (store (saveStagedJobsToTheFileSystem arg0 w))
    = indeterminateExplorerNodes (store w) /\
  files (saveStagedJobsToTheFileSystem arg0 w) = files w.
Proof.
  intros Hdec Hsel Htree.
  unfold saveStagedJobsToTheFileSystem, saveStagedJobsToTheFileSystem_try.
  rewrite Hdec. cbv zeta.
  change (store (dispatch (setApplySelectedInProgress true) w))
    with (reducer (setApplySelectedInProgress true) (store w)).
  rewrite selectedCaseHash_setApplySelectedInProgress, Hsel.
  rewrite bool_decide_false by (intros Hne; by apply Hne).
  rewrite Htree. simpl.
  repeat split.
  unfold jobManagerCalls. simpl.
  rewrite !List.filter_app. simpl. by rewrite !app_nil_r.
Qed.

(** When the job manager throws, the command reports the error and clears
    nothing: the store and the files are as the job manager left them, but
    for the in-progress flag. *)
Lemma saveStagedJobs_accept_throws
  (arg0 : unknown) (w : World) (h : CaseHash) (tree : ExplorerTree)
  (s' : RootState) (fs' : gmap string string) (message : string) :
  caseHashCodec arg0 = Some h ->
  selectedCaseHash (store w) = Some h ->
  selectExplorerTree (reducer (setApplySelectedInProgress true) (store w))
    workspaceFolder = Some tree ->
  acceptJobs (list_to_set (selectedJobHashes tree))
    (reducer (setApplySelectedInProgress true) (store w), files w)
    = (s', fs', Some message) ->
  store (saveStagedJobsToTheFileSystem arg0 w)
    = reducer (setApplySelectedInProgress false) s' /\
  files (saveStagedJobsToTheFileSystem arg0 w) = fs' /\
  trace (saveStagedJobsToTheFileSystem arg0 w)
    = trace w ++ [Dispatch (setApplySelectedInProgress true);
                  AcceptJobs (list_to_set (selectedJobHashes tree));
                  SendError "intuita.sourceControl.saveStagedJobsToTheFileSystem";
                  ShowErrorMessage message;
                  Dispatch (setApplySelectedInProgress false)].
Proof.
  intros Hdec Hsel Htree Haccept.
  unfold saveStagedJobsToTheFileSystem, saveStagedJobsToTheFileSystem_try.
  rewrite Hdec. cbv zeta.
  change (store (dispatch (setApplySelectedInProgress true) w))
    with (reducer (setApplySelectedInProgress true) (store w)).
  rewrite selectedCaseHash_setApplySelectedInProgress, Hsel.
  rewrite bool_decide_false by (intros Hne; by apply Hne).
  rewrite Htree.
  unfold callJobManager.
  change (store (emit _ (dispatch (setApplySelectedInProgress true) w)))
    with (reducer (setApplySelectedInProgress true) (store w)).
  change (files (emit _ (dispatch (setApplySelectedInProgress true) w)))
    with (files w).
  rewrite Haccept. simpl.
  repeat split. by rewrite <- !app_assoc.
Qed.

End ApplySelected.

Section WithSpecServices.
Import SpecServices.

(** C3: a counterexample to the claim as stated.  The selected case is no
    longer in the case store, so there is no explorer tree: the command is
    invoked with the hash of the selected case, yet nothing is accepted
    and the selected node of the case stays recorded. *)
Lemma saveStagedJobs_without_tree :
  caseHashCodec (UString "case-1") = Some "case-1" /\
  selectedCaseHash (store SpecServices.staleSelection) = Some "case-1" /\
  Extension.jobManagerCalls
    (Extension.saveStagedJobsToTheFileSystem (UString "case-1")
       SpecServices.staleSelection) = [] /\
  nodesOf
    (selectedExplorerNodes
       (store (Extension.saveStagedJobsToTheFileSystem (UString "case-1")
                 SpecServices.staleSelection))) "case-1" = ["job-1"] /\
  ~ Extension.appliesSelection (UString "case-1") SpecServices.staleSelection.
Proof.
  assert (Hnodes :
    nodesOf
      (selectedExplorerNodes
         (store (Extension.saveStagedJobsToTheFileSystem (UString "case-1")
                   SpecServices.staleSelection))) "case-1" = ["job-1"])
    by (vm_compute; reflexivity).
  repeat split; try (vm_compute; reflexivity).
  intros Hclaim.
  destruct (Hclaim "case-1") as (tree & _ & _ & Hsel & _);
    [vm_compute; reflexivity | reflexivity |].
  rewrite Hnodes in Hsel. discriminate.
Qed.

Lemma saveStagedJobs_accepts_selected_jobs_witness :
  trace (Extension.saveStagedJobsToTheFileSystem (UString "case-1") reviewing)
    = [Dispatch (setApplySelectedInProgress true);
       AcceptJobs {[ "job-move" ]};
       Dispatch (clearSelectedExplorerNodes "case-1");
       Dispatch (clearIndeterminateExplorerNodes "case-1");
       ExecuteCommand "workbench.view.scm";
       Dispatch (setApplySelectedInProgress false)] /\
  Extension.jobManagerCalls
    (Extension.saveStagedJobsToTheFileSystem (UString "case-1") reviewing)
    = [AcceptJobs {[ "job-move" ]}] /\
  nodesOf
    (selectedExplorerNodes
       (store (Extension.saveStagedJobsToTheFileSystem (UString "case-1") reviewing)))
    "case-1" = [] /\
  nodesOf
    (indeterminateExplorerNodes
       (store (Extension.saveStagedJobsToTheFileSystem (UString "case-1") reviewing)))
    "case-1" = [] /\
  files (Extension.saveStagedJobsToTheFileSystem (UString "case-1") reviewing)
    = {[ "file:///repo/b.ts" := "a"; "file:///repo/c.ts" := "c" ]}.
Proof.
  refine (saveStagedJobs_accepts_selected_jobs (UString "case-1") reviewing "case-1"
            {| Extension.selectedJobHashes := ["job-move"] |}
            (dropJobs ["job-move"] (reducer (setApplySelectedInProgress true) (store reviewing)))
            _ _ _ _ _);
    vm_compute; reflexivity.
Defined.

Lemma commands_ignore_unselected_case_witness :
  (trace (Extension.saveStagedJobsToTheFileSystem (UString "case-2") reviewing)
     = [Dispatch (setApplySelectedInProgress true);
        Dispatch (setApplySelectedInProgress false)]) /\
  Extension.discardJobs (UString "case-2") reviewing = reviewing.
Proof.
  destruct (commands_ignore_unselected_case (UString "case-2") reviewing "case-2")
    as [[Htrace _] Hdiscard];
    [vm_compute; reflexivity | vm_compute; congruence |].
  split; [exact Htrace | exact Hdiscard].
Defined.

End WithSpecServices.

Section Discard.
Import Extension.
Context `{HC : HashCodecs}.
Variable report0 : unknown -> string.
Variable folder : string.
Variable select : RootState -> string -> option ExplorerTree.
Variable accept : gset JobHash -> RootState * gmap string string ->
                  RootState * gmap string string * option string.

Let services : Collaborators :=
  {| report := report0;
     workspaceFolder := folder;
     selectExplorerTree := select;
     acceptJobs := accept;
     deleteJobs := SpecServices.deleteJobs |}.

(** C5: whatever it is invoked with, the discard command leaves every
    file as it is; either the store is untouched, or the selected job
    hashes of the tree have been dropped from the job and case stores and
    the selected and indeterminate nodes of the case emptied, and nothing
    else has changed. *)
Theorem discardJobs_has_no_filesystem_effect (arg0 : unknown) (w : World) :
  files (@discardJobs HC services arg0 w) = files w /\
  (store (@discardJobs HC services arg0 w) = store w \/
   exists h tree,
     caseHashCodec arg0 = Some h /\
     selectedCaseHash (store w) = Some h /\
     select (store w) folder = Some tree /\
     store (@discardJobs HC services arg0 w)
       = reducer (clearIndeterminateExplorerNodes h)
           (reducer (clearSelectedExplorerNodes h)
              (SpecServices.dropJobs (selectedJobHashes tree) (store w)))).
Proof.
  unfold discardJobs, discardJobs_try.
  destruct (caseHashCodec arg0) as [h|] eqn:Hdec; [|by split; [|left]].
  cbv zeta.
  case_bool_decide as Hsel; [by split; [|left]|].
  assert (selectedCaseHash (store w) = Some h) as Hsel'.
  { destruct (decide (Some h = selectedCaseHash (store w))); [done | by destruct Hsel]. }
  change (@selectExplorerTree services) with select.
  change (@workspaceFolder services) with folder.
  destruct (select (store w) folder) as [tree|] eqn:Htree; [|by split; [|left]].
  split; [reflexivity|].
  right. exists h, tree. done.
Qed.

End Discard.

(** ** Progress events *)

(** C7 (amended): a progress event that names a codemod is forwarded to
    the resolved webview as it arrives, as one message carrying the same
    hash, and every other event is dropped.  The main view forwards the
    events whose [codemodHash] is not [null], with the counts as they
    came.  The codemod list panel forwards the events whose hash is
    present and not empty and whose [totalFiles] is not zero, with the
    percentage [Math.round((processedFiles / totalFiles) * 100)], computed
    on floats, or 0 when [totalFiles] is not greater than zero. *)
Theorem progress_forwarded_when_codemod_known
  (e : CodemodListPanelProvider.Progress) (v : CodemodListPanelProvider.WebviewView)
  (m : MainViewProvider.ShowProgress) (v' : MainViewProvider.WebviewView)
  (root : option Uri) :
  (forall h,
     CodemodListPanelProvider.codemodHash e = Some h ->
     h <> "" ->
     (CodemodListPanelProvider.totalFiles e =? 0)%float = false ->
     CodemodListPanelProvider.handleCodemodExecutionProgress e
       {| CodemodListPanelProvider.__view := Some v |}
     = {| CodemodListPanelProvider.__view :=
            Some {| CodemodListPanelProvider.posted :=
                      CodemodListPanelProvider.posted v
                      ++ [CodemodListPanelProvider.setCodemodExecutionProgress
                            (if (0 <? CodemodListPanelProvider.totalFiles e)%float
                             then CodemodListPanelProvider.Math_round
                                    (CodemodListPanelProvider.processedFiles e
                                     / CodemodListPanelProvider.totalFiles e * 100)%float
                             else 0%float) h] |} |}) /\
  (CodemodListPanelProvider.codemodHash e = None \/
   CodemodListPanelProvider.codemodHash e = Some "" \/
   (CodemodListPanelProvider.totalFiles e =? 0)%float = true ->
   CodemodListPanelProvider.handleCodemodExecutionProgress e
     {| CodemodListPanelProvider.__view := Some v |}
   = {| CodemodListPanelProvider.__view := Some v |}) /\
  (forall h',
     MainViewProvider.codemodHash m = Some h' ->
     MainViewProvider.onShowProgress m
       {| MainViewProvider.__view := Some v'; MainViewProvider.__rootUri := root |}
     = {| MainViewProvider.__view :=
            Some {| MainViewProvider.posted :=
                      MainViewProvider.posted v'
                      ++ [MainViewProvider.setCodemodExecutionProgress h'
                            (MainViewProvider.progressKind m)
                            (MainViewProvider.totalFileNumber m)
                            (MainViewProvider.processedFileNumber m)] |};
          MainViewProvider.__rootUri := root |}) /\
  (MainViewProvider.codemodHash m = None ->
   MainViewProvider.onShowProgress m
     {| MainViewProvider.__view := Some v'; MainViewProvider.__rootUri := root |}
   = {| MainViewProvider.__view := Some v'; MainViewProvider.__rootUri := root |}).
Proof.
  repeat split.
  - intros h He Hh Htotal.
    unfold CodemodListPanelProvider.handleCodemodExecutionProgress.
    rewrite He, (bool_decide_false (h = "")), Htotal by done.
    reflexivity.
  - unfold CodemodListPanelProvider.handleCodemodExecutionProgress.
    intros [-> | [-> | Htotal]]; [done | done |].
    destruct (CodemodListPanelProvider.codemodHash e); [|done].
    by rewrite Htotal, orb_true_r.
  - intros h' Hm. unfold MainViewProvider.onShowProgress. by rewrite Hm.
  - unfold MainViewProvider.onShowProgress. by intros ->.
Qed.

(** 23 files of 40: the quotient times 100 is the float just below 57.5,
    so the panel posts 57. *)
Lemma progress_forwarded_when_codemod_known_witness :
  CodemodListPanelProvider.handleCodemodExecutionProgress
    {| CodemodListPanelProvider.processedFiles := 23;
       CodemodListPanelProvider.totalFiles := 40;
       CodemodListPanelProvider.codemodHash := Some "codemod-1" |}
    {| CodemodListPanelProvider.__view :=
         Some {| CodemodListPanelProvider.posted := [] |} |}
  = {| CodemodListPanelProvider.__view :=
         Some {| CodemodListPanelProvider.posted :=
                   [CodemodListPanelProvider.setCodemodExecutionProgress 57 "codemod-1"] |} |} /\
  MainViewProvider.onShowProgress
    {| MainViewProvider.codemodHash := Some "codemod-1";
       MainViewProvider.progressKind := "finite";
       MainViewProvider.totalFileNumber := 40;
       MainViewProvider.processedFileNumber := 23 |}
    {| MainViewProvider.__view := Some {| MainViewProvider.posted := [] |};
       MainViewProvider.__rootUri := None |}
  = {| MainViewProvider.__view :=
         Some {| MainViewProvider.posted :=
                   [MainViewProvider.setCodemodExecutionProgress "codemod-1" "finite" 40 23] |};
       MainViewProvider.__rootUri := None |}.
Proof.
  destruct (progress_forwarded_when_codemod_known
              {| CodemodListPanelProvider.processedFiles := 23;
                 CodemodListPanelProvider.totalFiles := 40;
                 CodemodListPanelProvider.codemodHash := Some "codemod-1" |}
              {| CodemodListPanelProvider.posted := [] |}
              {| MainViewProvider.codemodHash := Some "codemod-1";
                 MainViewProvider.progressKind := "finite";
                 MainViewProvider.totalFileNumber := 40;
                 MainViewProvider.processedFileNumber := 23 |}
              {| MainViewProvider.posted := [] |}
              None) as (Hpanel & _ & Hmain & _).
  split.
  - exact (Hpanel "codemod-1" eq_refl ltac:(discriminate) eq_refl).
  - exact (Hmain "codemod-1" eq_refl).
Defined.

(** An unresolved view is posted nothing. *)
Lemma progress_without_view (e : CodemodListPanelProvider.Progress) :
  CodemodListPanelProvider.handleCodemodExecutionProgress e
    {| CodemodListPanelProvider.__view := None |}
  = {| CodemodListPanelProvider.__view := None |}.
Proof.
  unfold CodemodListPanelProvider.handleCodemodExecutionProgress.
  destruct (CodemodListPanelProvider.codemodHash e); [|done].
  by destruct (_ || _).
Qed.

(** The percentage is rounded from the float product, not from the exact
    quotient: 23 of 40 and 29 of 200 give 57 and 14, where the exact
    quotients 57.5 and 14.5 would round to 58 and 15. *)
Lemma progressOf_rounds_the_float :
  CodemodListPanelProvider.progressOf
    {| CodemodListPanelProvider.processedFiles := 23;
       CodemodListPanelProvider.totalFiles := 40;
       CodemodListPanelProvider.codemodHash := None |} = 57%float /\
  CodemodListPanelProvider.progressOf
    {| CodemodListPanelProvider.processedFiles := 29;
       CodemodListPanelProvider.totalFiles := 200;
       CodemodListPanelProvider.codemodHash := None |} = 14%float /\
  CodemodListPanelProvider.progressOf
    {| CodemodListPanelProvider.processedFiles := 40;
       CodemodListPanelProvider.totalFiles := 40;
       CodemodListPanelProvider.codemodHash := None |} = 100%float.
Proof. repeat split; vm_compute; reflexivity. Qed.

(** C7: a counterexample to the claim as stated.  An event whose
    [totalFiles] is zero reaches the codemod list panel and an event
    without a codemod hash reaches the main view; both webviews are
    resolved, and neither is posted anything. *)
Lemma progress_event_dropped :
  CodemodListPanelProvider.handleCodemodExecutionProgress
    {| CodemodListPanelProvider.processedFiles := 0;
       CodemodListPanelProvider.totalFiles := 0;
       CodemodListPanelProvider.codemodHash := Some "codemod-1" |}
    {| CodemodListPanelProvider.__view :=
         Some {| CodemodListPanelProvider.posted := [] |} |}
  = {| CodemodListPanelProvider.__view :=
         Some {| CodemodListPanelProvider.posted := [] |} |} /\
  MainViewProvider.onShowProgress
    {| MainViewProvider.codemodHash := None;
       MainViewProvider.progressKind := "finite";
       MainViewProvider.totalFileNumber := 10;
       MainViewProvider.processedFileNumber := 4 |}
    {| MainViewProvider.__view := Some {| MainViewProvider.posted := [] |};
       MainViewProvider.__rootUri := None |}
  = {| MainViewProvider.__view := Some {| MainViewProvider.posted := [] |};
       MainViewProvider.__rootUri := None |}.
Proof. split; reflexivity. Qed.

(** ** CampaignManagerProvider: the file level of the tree *)

Section FileLevel.
Import Jobs CampaignManagerProvider.

Lemma insertSorted_Permutation {A} (compare : A -> A -> Z) x l :
  insertSorted compare x l ≡ₚ x :: l.
Proof.
  induction l as [|y l IH]; simpl; [done|].
  destruct (0 <? compare y x)%Z; [done|].
  rewrite IH. apply Permutation_swap.
Qed.

Lemma sort_Permutation {A} (compare : A -> A -> Z) l : sort compare l ≡ₚ l.
Proof.
  unfold sort.
  induction l as [|x l IH] using rev_ind; [done|].
  rewrite foldl_snoc, insertSorted_Permutation, IH.
  by rewrite Permutation_cons_append.
Qed.

Lemma addTargetUris_targetUri uriSet job :
  addTargetUris uriSet job
  = match targetUri job with
    | Some uri => uriSet_add uri uriSet
    | None => uriSet
    end.
Proof.
  unfold addTargetUris, targetUri, newUriKinds, oldUriKinds.
  destruct (kind job), (newUri job), (oldUri job); reflexivity.
Qed.

Lemma uriSet_add_NoDup uri uriSet :
  NoDup (uri_ref <$> uriSet) -> NoDup (uri_ref <$> uriSet_add uri uriSet).
Proof.
  intros Hnd. unfold uriSet_add. case_bool_decide as Hin; [done|].
  rewrite fmap_app. apply NoDup_app. split; [done|]. split.
  - intros r Hr Hr'. apply list_elem_of_singleton in Hr'. by subst.
  - apply NoDup_singleton.
Qed.

(** The set holds each [Uri] object once. *)
Lemma uris_NoDup jobs : NoDup (uri_ref <$> uris jobs).
Proof.
  unfold uris.
  induction jobs as [|job jobs IH] using rev_ind; [constructor|].
  rewrite foldl_snoc, addTargetUris_targetUri.
  destruct (targetUri job); [by apply uriSet_add_NoDup | done].
Qed.

Lemma uriSet_add_elem_of uri uri' uriSet :
  uri' ∈ uriSet_add uri uriSet -> uri' ∈ uriSet \/ uri' = uri.
Proof.
  unfold uriSet_add. case_bool_decide; [by left|].
  rewrite elem_of_app, list_elem_of_singleton. tauto.
Qed.

Lemma uriSet_add_mono uri uri' uriSet :
  uri' ∈ uriSet -> uri' ∈ uriSet_add uri uriSet.
Proof.
  unfold uriSet_add. case_bool_decide; [done|].
  rewrite elem_of_app. tauto.
Qed.

Lemma uriSet_add_ref uri uriSet : uri_ref uri ∈ uri_ref <$> uriSet_add uri uriSet.
Proof.
  unfold uriSet_add. case_bool_decide; [done|].
  rewrite fmap_app, elem_of_app. right. simpl. apply list_elem_of_singleton. done.
Qed.

(** Every uri of the file level is the target uri of a job of the case. *)
Lemma uris_are_targets jobs uri :
  uri ∈ uris jobs -> exists job, job ∈ jobs /\ targetUri job = Some uri.
Proof.
  unfold uris.
  induction jobs as [|job jobs IH] using rev_ind; simpl.
  - intros Hin. by apply elem_of_nil in Hin.
  - rewrite foldl_snoc, addTargetUris_targetUri.
    destruct (targetUri job) as [u|] eqn:Htarget.
    + intros [Hin | ->]%uriSet_add_elem_of.
      * destruct (IH Hin) as (j & Hj & Hjt). exists j. rewrite elem_of_app. eauto.
      * exists job. rewrite elem_of_app, list_elem_of_singleton. eauto.
    + intros Hin. destruct (IH Hin) as (j & Hj & Hjt).
      exists j. rewrite elem_of_app. eauto.
Qed.

(** Every target [Uri] object of a job of the case is in the set. *)
Lemma targets_are_uris jobs job uri :
  job ∈ jobs -> targetUri job = Some uri -> uri_ref uri ∈ uri_ref <$> uris jobs.
Proof.
  unfold uris.
  induction jobs as [|job' jobs IH] using rev_ind.
  - intros Hin. by apply elem_of_nil in Hin.
  - rewrite foldl_snoc, addTargetUris_targetUri.
    intros [Hin | Hin]%elem_of_app Htarget.
    + specialize (IH Hin Htarget).
      destruct (targetUri job') as [u|]; [|done].
      apply list_elem_of_fmap in IH as (u0 & -> & Hu0).
      apply list_elem_of_fmap. exists u0. split; [done|]. by apply uriSet_add_mono.
    + apply list_elem_of_singleton in Hin as ->. rewrite Htarget.
      apply uriSet_add_ref.
Qed.

(** Under a file node are the jobs of the case whose [newUri] or [oldUri]
    reads as the uri of the node, all of them and no others, in the order
    of the case. *)
Lemma fileGroups_jobs jobs uri js :
  (uri, js) ∈ fileGroups jobs -> js = List.filter (concerns uri) jobs.
Proof.
  unfold fileGroups. intros Hin.
  apply list_elem_of_fmap in Hin as (u & Heq & _). by inversion Heq.
Qed.

Lemma targetUri_concerns job uri : targetUri job = Some uri -> concerns uri job = true.
Proof.
  unfold targetUri, concerns.
  repeat case_bool_decide; intros Htarget; try done.
  - rewrite Htarget. by rewrite bool_decide_true.
  - rewrite Htarget. rewrite (bool_decide_true (uri_toString uri = uri_toString uri)) by done.
    by rewrite orb_true_r.
Qed.

(** No file node is empty. *)
Lemma fileGroups_nonempty jobs uri js : (uri, js) ∈ fileGroups jobs -> js <> [].
Proof.
  intros Hin. pose proof (fileGroups_jobs _ _ _ Hin) as ->.
  unfold fileGroups in Hin.
  apply list_elem_of_fmap in Hin as (u & Heq & Hu). inversion Heq; subst u.
  destruct (uris_are_targets _ _ Hu) as (job & Hjob & Htarget).
  intros Hnil.
  assert (job ∈ List.filter (concerns uri) jobs) as Hjob'.
  { apply list_elem_of_In, filter_In. split; [by apply list_elem_of_In|].
    by apply targetUri_concerns. }
  rewrite Hnil in Hjob'. by apply elem_of_nil in Hjob'.
Qed.

(** When equal uris are one object, the file level has one node per
    distinct target uri. *)
Lemma uris_NoDup_toString jobs :
  (forall u u', u ∈ uris jobs -> u' ∈ uris jobs ->
                uri_toString u = uri_toString u' -> uri_ref u = uri_ref u') ->
  NoDup (uri_toString <$> uris jobs).
Proof.
  intros Hinterned.
  pose proof (uris_NoDup jobs) as Hnd.
  induction (uris jobs) as [|u us IH]; [constructor|].
  rewrite fmap_cons in *. apply NoDup_cons in Hnd as [Hnotin Hnd].
  apply NoDup_cons. split.
  - intros Hin. apply Hnotin.
    apply list_elem_of_fmap in Hin as (u' & Heq & Hu').
    apply list_elem_of_fmap. exists u'. split; [|done].
    apply Hinterned; [left | by right | done].
  - apply IH; [|done]. intros u1 u2 H1 H2. apply Hinterned; by right.
Qed.

Lemma sort_singleton {A} (compare : A -> A -> Z) x : sort compare [x] = [x].
Proof. reflexivity. Qed.

Lemma sort_twice_the_same {A} (compare : A -> A -> Z) x : sort compare [x; x] = [x; x].
Proof. unfold sort. simpl. by destruct (0 <? compare x x)%Z. Qed.

(** C4: the code at the failing input.  The two jobs of the case have one
    distinct target uri, [file:///repo/a.ts], carried by two [Uri]
    objects; the file level of the case element holds two nodes for it,
    each labelled [/a.ts] and each with both jobs under it. *)
Theorem file_level_repeats_a_target_uri `{Comparators} :
  remove_dups (uri_toString <$> omap targetUri [firstRewrite; secondRewrite])
    = ["file:///repo/a.ts"] /\
  exists children,
    children ≡ₚ [buildJobElement firstRewrite "/repo";
                 buildJobElement secondRewrite "/repo"] /\
    (__buildCaseElementsAndLatestJob "/repo" [twoRewrites] twoRewritesJobMap).1
    = [ {| caseElement_hash := "case-1";
           caseElement_label := "rename-foo";
           caseElement_children :=
             [ buildFileElement "case-1" "/a.ts" children;
               buildFileElement "case-1" "/a.ts" children ] |} ].
Proof.
  split; [vm_compute; reflexivity|].
  exists (sort compareJobElements
            [buildJobElement firstRewrite "/repo"; buildJobElement secondRewrite "/repo"]).
  split; [apply sort_Permutation|].
  unfold __buildCaseElementsAndLatestJob. cbv zeta.
  change ((?a, ?b).1) with a.
  assert (unsortedCaseElements "/repo" [twoRewrites] twoRewritesJobMap
          = [ {| caseElement_hash := "case-1";
                 caseElement_label := "rename-foo";
                 caseElement_children :=
                   [ buildFileElement "case-1" "/a.ts"
                       [buildJobElement firstRewrite "/repo";
                        buildJobElement secondRewrite "/repo"];
                     buildFileElement "case-1" "/a.ts"
                       [buildJobElement firstRewrite "/repo";
                        buildJobElement secondRewrite "/repo"] ] |} ]) as ->
    by (vm_compute; reflexivity).
  rewrite sort_singleton. unfold sortChildren.
  rewrite list_fmap_singleton. cbn [caseElement_children caseElement_hash caseElement_label].
  rewrite sort_twice_the_same. reflexivity.
Qed.

End FileLevel.

(** ** The persisted state codec *)

Section PersistedFacts.
Import PersistedState.
Context `{HC : HashCodecs}.

Lemma digests_decode ds :
  Forall (fun d => isExplorerNodeHashDigest d = true) ds ->
  mapM _explorerNodeHashDigestCodec (UString <$> ds) = Some ds.
Proof.
  induction 1 as [|d ds Hd _ IH]; [done|].
  rewrite fmap_cons. cbn [mapM]. rewrite IH.
  unfold _explorerNodeHashDigestCodec, branded. by rewrite Hd.
Qed.

(** Decoding what was encoded gives the record back. *)
Lemma explorerNodesCodec_encode entries :
  Forall validEntry entries ->
  explorerNodesCodec (encodeExplorerNodes entries) = Some (list_to_map entries).
Proof.
  unfold explorerNodesCodec, encodeExplorerNodes, t_record.
  induction 1 as [|[k ds] entries [Hk Hds] _ IH]; [done|].
  rewrite fmap_cons. cbn [decodeProps fst snd].
  unfold caseHashCodec at 1, branded. cbn in Hk. rewrite Hk.
  unfold t_readonlyArray at 1. rewrite digests_decode by done.
  rewrite IH. done.
Qed.

(** A missing or malformed record of indeterminate nodes decodes to the
    empty record. *)
Lemma indeterminate_nodes_fallback (props : list (string * unknown)) :
  explorerNodesCodec (getProp "indeterminateExplorerNodes" props) = None ->
  persisted_indeterminateExplorerNodes <$> persistedStateCodecNew (UObject props)
  = Some ∅.
Proof. intros Hnone. simpl. unfold withFallback. by rewrite Hnone. Qed.

(** C2 (amended): the persisted state holds, for each case, the digests
    of its selected explorer nodes and, apart from them, the digests of
    its indeterminate explorer nodes; both records decode to what was
    written, so the indeterminate state of ancestor nodes is stored as
    such. *)
Theorem indeterminate_nodes_are_persisted
  (props : list (string * unknown))
  (selectedEntries indeterminateEntries : list (CaseHash * list ExplorerNodeHashDigest)) :
  getProp "selectedExplorerNodes" props = encodeExplorerNodes selectedEntries ->
  getProp "indeterminateExplorerNodes" props = encodeExplorerNodes indeterminateEntries ->
  Forall validEntry selectedEntries ->
  Forall validEntry indeterminateEntries ->
  exists p,
    persistedStateCodecNew (UObject props) = Some p /\
    persisted_selectedExplorerNodes p = list_to_map selectedEntries /\
    persisted_indeterminateExplorerNodes p = list_to_map indeterminateEntries.
Proof.
  intros Hsel Hind Hvs Hvi. eexists. split; [reflexivity|].
  cbn [persisted_selectedExplorerNodes persisted_indeterminateExplorerNodes].
  unfold withFallback.
  rewrite Hsel, Hind, !explorerNodesCodec_encode by done. done.
Qed.

End PersistedFacts.

Section PersistedExamples.
Import SpecServices PersistedState.

Lemma indeterminate_nodes_are_persisted_witness :
  exists p,
    persistedStateCodecNew
      (UObject [("selectedExplorerNodes", encodeExplorerNodes [("case-1", ["job-move"])]);
                ("indeterminateExplorerNodes",
                 encodeExplorerNodes [("case-1", ["case-1"; "directory-1"])])])
    = Some p /\
    persisted_selectedExplorerNodes p = list_to_map [("case-1", ["job-move"])] /\
    persisted_indeterminateExplorerNodes p
    = list_to_map [("case-1", ["case-1"; "directory-1"])].
Proof.
  apply (indeterminate_nodes_are_persisted
           [("selectedExplorerNodes", encodeExplorerNodes [("case-1", ["job-move"])]);
            ("indeterminateExplorerNodes",
             encodeExplorerNodes [("case-1", ["case-1"; "directory-1"])])]
           [("case-1", ["job-move"])]
           [("case-1", ["case-1"; "directory-1"])]).
  - reflexivity.
  - reflexivity.
  - repeat constructor.
  - repeat constructor.
Defined.

(** C2: a counterexample to the claim as stated.  A persisted object
    records a directory node of a case as indeterminate; it decodes, and
    the decoded state holds that node. *)
Lemma stored_indeterminate_node :
  (persisted_indeterminateExplorerNodes
     <$> persistedStateCodecNew
           (UObject [("indeterminateExplorerNodes",
                      encodeExplorerNodes [("case-1", ["directory-1"])])]))
  = Some {[ "case-1" := ["directory-1"] ]} /\
  ~ noStoredIndeterminate
      (UObject [("indeterminateExplorerNodes",
                 encodeExplorerNodes [("case-1", ["directory-1"])])]).
Proof.
  split; [vm_compute; reflexivity|].
  intros Hnone.
  specialize (Hnone _ "case-1" eq_refl). vm_compute in Hnone. discriminate.
Qed.

End PersistedExamples.

(** ** The selection tree *)

Section SelectionTreeFacts.
Import SelectionTree.

Lemma elem_of_addNode x n l : x ∈ addNode n l <-> x = n \/ x ∈ l.
Proof.
  unfold addNode. case_bool_decide as Hn.
  - split; [by right | by intros [-> | ?]].
  - rewrite elem_of_app, list_elem_of_singleton. tauto.
Qed.

Lemma elem_of_removeNode x n l : x ∈ removeNode n l <-> x <> n /\ x ∈ l.
Proof. unfold removeNode. by rewrite list_elem_of_filter. Qed.

Lemma stateOf_selected sel n : stateOf sel n = selected <-> n ∈ selectedNodes sel.
Proof. unfold stateOf. repeat case_bool_decide; split; done. Qed.

Lemma stateOf_setState n st sel x :
  stateOf (setState n st sel) x = if bool_decide (x = n) then st else stateOf sel x.
Proof.
  unfold stateOf.
  destruct st; cbn [setState selectedNodes indeterminateNodes];
    rewrite ?(bool_decide_ext _ _ (elem_of_addNode _ _ _)),
      ?(bool_decide_ext _ _ (elem_of_removeNode _ _ _));
    repeat case_bool_decide; try done; exfalso; tauto.
Qed.

Lemma stateOf_setLeaves st sel ls x :
  stateOf (foldr (fun j => setState j st) sel ls) x
  = if bool_decide (x ∈ ls) then st else stateOf sel x.
Proof.
  induction ls as [|j ls IH]; [done|].
  cbn [foldr]. rewrite stateOf_setState, IH.
  rewrite (bool_decide_ext _ _ (elem_of_cons ls x j)).
  repeat case_bool_decide; try done; exfalso; tauto.
Qed.

Lemma summary_ext (f g : ExplorerNodeHashDigest -> SelectionState) ls :
  (forall j, j ∈ ls -> f j = g j) -> summary (f <$> ls) = summary (g <$> ls).
Proof.
  intros Hext. f_equal. apply Forall_fmap_ext_1, Forall_forall, Hext.
Qed.

Lemma allSelected_spec states :
  allSelected states = true <-> Forall (fun st => st = selected) states.
Proof.
  unfold allSelected. rewrite <- Is_true_true, forallb_True.
  apply Forall_iff. intros st. by rewrite bool_decide_spec.
Qed.

Lemma noneSelected_spec states :
  noneSelected states = true <-> Forall (fun st => st = unselected) states.
Proof.
  unfold noneSelected. rewrite <- Is_true_true, forallb_True.
  apply Forall_iff. intros st. by rewrite bool_decide_spec.
Qed.

Lemma noneSelected_not_all states :
  states <> [] -> noneSelected states = true -> allSelected states = false.
Proof.
  destruct states as [|st states]; [done|]. intros _. cbn.
  by destruct st.
Qed.

Lemma allSelected_concat (groups : list (list SelectionState)) :
  allSelected (summary <$> groups) = allSelected (concat groups).
Proof.
  induction groups as [|g groups IH]; [done|].
  unfold allSelected in *. cbn [fmap list_fmap concat forallb].
  rewrite forallb_app, IH. f_equal.
  unfold summary. fold (allSelected g).
  destruct (allSelected g); [done|]. by destruct (noneSelected g).
Qed.

Lemma noneSelected_concat (groups : list (list SelectionState)) :
  Forall (fun g => g <> []) groups ->
  noneSelected (summary <$> groups) = noneSelected (concat groups).
Proof.
  induction 1 as [|g groups Hg _ IH]; [done|].
  unfold noneSelected in *. cbn [fmap list_fmap concat forallb].
  rewrite forallb_app, IH. f_equal.
  unfold summary. fold (noneSelected g).
  destruct (noneSelected g) eqn:Hn.
  - by rewrite (noneSelected_not_all g Hg Hn).
  - by destruct (allSelected g).
Qed.

(** The summary of the summaries of non-empty groups is the summary of
    all their members. *)
Lemma summary_concat (groups : list (list SelectionState)) :
  Forall (fun g => g <> []) groups ->
  summary (summary <$> groups) = summary (concat groups).
Proof.
  intros Hne. unfold summary.
  by rewrite allSelected_concat, noneSelected_concat.
Qed.

(** What the summary of the leaves of a node says about them. *)
Lemma summary_spec sel ls :
  ls <> [] ->
  (forall j, j ∈ ls -> stateOf sel j <> indeterminate) ->
  (summary (stateOf sel <$> ls) = selected
   <-> Forall (fun j => j ∈ selectedNodes sel) ls) /\
  (summary (stateOf sel <$> ls) = unselected
   <-> Forall (fun j => j ∉ selectedNodes sel) ls) /\
  (summary (stateOf sel <$> ls) = indeterminate
   <-> ~ Forall (fun j => j ∈ selectedNodes sel) ls /\
       ~ Forall (fun j => j ∉ selectedNodes sel) ls).
Proof.
  intros Hne Hleaves.
  assert (allSelected (stateOf sel <$> ls) = true
          <-> Forall (fun j => j ∈ selectedNodes sel) ls) as Hall.
  { rewrite allSelected_spec, Forall_fmap. apply Forall_iff. intros j.
    apply stateOf_selected. }
  assert (noneSelected (stateOf sel <$> ls) = true
          <-> Forall (fun j => j ∉ selectedNodes sel) ls) as Hnone.
  { rewrite noneSelected_spec, Forall_fmap, !Forall_forall.
    split; intros H j Hj.
    - specialize (H j Hj). cbn in H. rewrite <- stateOf_selected. congruence.
    - specialize (H j Hj). specialize (Hleaves j Hj). cbn.
      rewrite <- stateOf_selected in H. by destruct (stateOf sel j). }
  assert (noneSelected (stateOf sel <$> ls) = true ->
          allSelected (stateOf sel <$> ls) = false) as Hexcl.
  { apply noneSelected_not_all. by destruct ls. }
  unfold summary.
  destruct (allSelected (stateOf sel <$> ls)) eqn:Ha;
    destruct (noneSelected (stateOf sel <$> ls)) eqn:Hn;
    try (specialize (Hexcl eq_refl); discriminate);
    repeat split; try done; intuition (try discriminate).
Qed.


Lemma elem_of_leaves t j :
  j ∈ leaves t <-> exists f, f ∈ fileNodes t /\ j ∈ jobs f.
Proof.
  unfold leaves. induction (fileNodes t) as [|f fs IH].
  - split; [by intros ?%elem_of_nil | by intros (f & ?%elem_of_nil & _)].
  - cbn [fmap list_fmap concat]. cbn [fmap list_fmap] in IH.
    rewrite elem_of_app, IH. split.
    + intros [Hj | (f' & Hf' & Hj)]; [exists f | exists f']; split; try done;
        [by left | by right].
    + intros (f' & [->|Hf']%elem_of_cons & Hj); [by left | right; eauto].
Qed.

Lemma leavesOf_leaves t n ls : leavesOf t n = Some ls -> ls ⊆ leaves t.
Proof.
  unfold leavesOf. case_bool_decide as Hcase; [by intros [= <-]|].
  destruct (List.find _ (fileNodes t)) as [f|] eqn:Hfind.
  - intros [= <-]. apply find_some in Hfind as [Hin _].
    apply list_elem_of_In in Hin. intros j Hj.
    apply elem_of_leaves. eauto.
  - case_bool_decide as Hleaf; [|done]. intros [= <-] j Hj.
    by apply list_elem_of_singleton in Hj as ->.
Qed.

Lemma leavesOf_ancestor t n :
  n ∈ ancestors t ->
  (n = caseId t /\ leavesOf t n = Some (leaves t)) \/
  (exists f, f ∈ fileNodes t /\ fileId f = n /\ leavesOf t n = Some (jobs f)).
Proof.
  unfold ancestors, leavesOf. intros Hn.
  case_bool_decide as Hcase; [by left|]. right.
  apply elem_of_cons in Hn as [Hn|Hn]; [done|].
  apply list_elem_of_fmap in Hn as (f0 & -> & Hf0).
  destruct (List.find _ (fileNodes t)) as [f|] eqn:Hfind.
  - apply find_some in Hfind as [Hin Hid].
    apply list_elem_of_In in Hin. apply bool_decide_eq_true in Hid. eauto.
  - apply list_elem_of_In in Hf0.
    pose proof (find_none _ _ Hfind _ Hf0) as Hno.
    by apply bool_decide_eq_false in Hno.
Qed.

(** The files are refreshed one after the other; each refresh changes the
    state of its own file node only. *)
Lemma stateOf_refreshFiles ls (fs : list FileNode) (sel : Selection) :
  NoDup (fileId <$> fs) ->
  (forall f j, f ∈ fs -> j ∈ jobs f -> j ∉ fileId <$> fs) ->
  (forall x, x ∉ fileId <$> fs ->
     stateOf (foldl (refreshFile ls) sel fs) x = stateOf sel x) /\
  (forall f, f ∈ fs ->
     stateOf (foldl (refreshFile ls) sel fs) (fileId f)
     = if touches ls f then summary (stateOf sel <$> jobs f)
       else stateOf sel (fileId f)).
Proof.
  revert sel. induction fs as [|f fs IH]; intros sel Hdup Hlevels.
  { split; [done|]. intros f Hf. by apply elem_of_nil in Hf. }
  rewrite fmap_cons in Hdup. apply NoDup_cons in Hdup as [Hf Hdup].
  assert (forall x, x <> fileId f ->
            stateOf (refreshFile ls sel f) x = stateOf sel x) as Hstep.
  { intros x Hx. unfold refreshFile. destruct (touches ls f); [|done].
    by rewrite stateOf_setState, bool_decide_false. }
  destruct (IH (refreshFile ls sel f) Hdup) as [IHother IHfile].
  { intros f' j Hf' Hj Hin. apply (Hlevels f' j); [by right | done |].
    rewrite fmap_cons. by right. }
  cbn [foldl]. split.
  - intros x Hx. rewrite fmap_cons, not_elem_of_cons in Hx. destruct Hx as [Hne Hx].
    by rewrite IHother, Hstep.
  - intros f' [->|Hf']%elem_of_cons.
    + rewrite IHother by done. unfold refreshFile.
      destruct (touches ls f); [|done].
      by rewrite stateOf_setState, bool_decide_true.
    + rewrite IHfile by done.
      assert (fileId f' <> fileId f) as Hne.
      { intros Heq. apply Hf. rewrite <- Heq. by apply list_elem_of_fmap_2. }
      rewrite Hstep by done.
      destruct (touches ls f'); [|done].
      apply summary_ext. intros j Hj. apply Hstep. intros ->.
      apply (Hlevels f' (fileId f)); [by right | done |].
      rewrite fmap_cons. by left.
Qed.

Lemma touches_false ls f j : touches ls f = false -> j ∈ jobs f -> j ∉ ls.
Proof.
  unfold touches. intros Hno Hj Hin.
  assert (existsb (fun j => bool_decide (j ∈ ls)) (jobs f) = true) as Hyes.
  { apply existsb_exists. exists j. split; [by apply list_elem_of_In|].
    by apply bool_decide_eq_true. }
  congruence.
Qed.

Lemma Inv_empty t :
  wellFormed t -> Inv t {| selectedNodes := []; indeterminateNodes := [] |}.
Proof.
  intros [_ _ Hfiles].
  assert (forall ls, ls <> [] ->
            summary (stateOf {| selectedNodes := []; indeterminateNodes := [] |} <$> ls)
            = unselected) as Hsum.
  { intros ls Hne.
    assert (noneSelected
              (stateOf {| selectedNodes := []; indeterminateNodes := [] |} <$> ls) = true)
      as Hnone.
    { apply noneSelected_spec, Forall_fmap, Forall_forall. by intros. }
    unfold summary. rewrite Hnone, noneSelected_not_all; [done | | done].
    intros Hnil%fmap_nil_inv. done. }
  split.
  - by intros.
  - intros f Hf. rewrite Hsum; [done|].
    by apply (proj1 (Forall_forall _ _) Hfiles).
  - intros Hne. by rewrite Hsum.
Qed.

Lemma Inv_toggle t sel n : wellFormed t -> Inv t sel -> Inv t (toggle t sel n).
Proof.
  intros [Hdup Hlevels Hfiles] [Hleaf Hfile Hcase]. unfold toggle.
  destruct (leavesOf t n) as [ls|] eqn:Hls; [|done]. cbv zeta.
  pose proof (leavesOf_leaves _ _ _ Hls) as Hsub.
  set (target := opposite (stateOf sel n)).
  set (sel1 := foldr (fun j => setState j target) sel ls).
  set (sel2 := foldl (refreshFile ls) sel1 (fileNodes t)).
  assert (target <> indeterminate) as Htarget.
  { unfold target. by destruct (stateOf sel n). }
  assert (forall x, stateOf sel1 x = if bool_decide (x ∈ ls) then target else stateOf sel x)
    as H1 by apply stateOf_setLeaves.
  unfold ancestors in Hdup, Hlevels. apply NoDup_cons in Hdup as [Hcase_id Hdup].
  destruct (stateOf_refreshFiles ls (fileNodes t) sel1 Hdup) as [H2other H2file].
  { intros f j Hf Hj Hin. apply (Hlevels j); [by right|].
    apply elem_of_leaves. eauto. }
  fold sel2 in H2other, H2file.
  assert (forall x, x <> caseId t -> stateOf (refreshCase t sel2) x = stateOf sel2 x)
    as H3.
  { intros x Hx. unfold refreshCase. by rewrite stateOf_setState, bool_decide_false. }
  assert (forall j, j ∈ leaves t -> stateOf (refreshCase t sel2) j = stateOf sel1 j)
    as Hleaf3.
  { intros j Hj. rewrite H3, H2other; [done| |].
    - intros Hin. apply (Hlevels j); [by right | done].
    - intros ->. apply (Hlevels (caseId t)); [by left | done]. }
  assert (forall f, f ∈ fileNodes t -> jobs f ⊆ leaves t) as Hjobs.
  { intros f Hf j Hj. apply elem_of_leaves. eauto. }
  assert (forall f, f ∈ fileNodes t ->
            stateOf sel2 (fileId f) = summary (stateOf sel1 <$> jobs f)) as Hfile2.
  { intros f Hf. rewrite H2file by done.
    destruct (touches ls f) eqn:Htouch; [done|].
    rewrite H1, bool_decide_false.
    - rewrite Hfile by done. apply summary_ext. intros j Hj.
      rewrite H1, bool_decide_false; [done|]. by eapply touches_false.
    - intros Hin. apply (Hlevels (fileId f)).
      + right. by apply list_elem_of_fmap_2.
      + by apply Hsub. }
  split.
  - intros j Hj. rewrite Hleaf3, H1 by done.
    case_bool_decide; [done | by apply Hleaf].
  - intros f Hf. rewrite H3.
    + rewrite Hfile2 by done. apply summary_ext. intros j Hj.
      symmetry. apply Hleaf3. by apply (Hjobs f).
    + intros Heq. apply Hcase_id. rewrite <- Heq. by apply list_elem_of_fmap_2.
  - intros _. unfold refreshCase at 1. rewrite stateOf_setState, bool_decide_true by done.
    transitivity (summary (summary <$> ((fun f => stateOf sel1 <$> jobs f) <$> fileNodes t))).
    + f_equal. rewrite <- list_fmap_compose.
      apply Forall_fmap_ext_1, Forall_forall. intros f Hf. by apply Hfile2.
    + rewrite summary_concat.
      * unfold leaves.
        transitivity (summary (stateOf sel1 <$> concat (jobs <$> fileNodes t))).
        -- f_equal. clear. induction (fileNodes t) as [|f fs IH]; [done|].
           cbn [fmap list_fmap concat]. cbn [fmap list_fmap concat] in IH.
           by rewrite fmap_app, IH.
        -- apply summary_ext. intros j Hj. symmetry. by apply Hleaf3.
      * apply Forall_fmap, Forall_forall. intros f Hf. cbn.
        pose proof (proj1 (Forall_forall _ _) Hfiles f Hf) as Hne.
        intros Hnil. apply fmap_nil_inv in Hnil. done.
Qed.

Lemma selectionOf_flip t n s :
  selectionOf (flipSelectedExplorerNode t n s) (caseId t)
  = toggle t (selectionOf s (caseId t)) n.
Proof.
  unfold flipSelectedExplorerNode, selectionOf at 1, setSelection, nodesOf. cbn.
  rewrite !lookup_insert_eq. by destruct (toggle _ _ _).
Qed.

Lemma Inv_toggles t s ns :
  wellFormed t ->
  Inv t (selectionOf s (caseId t)) ->
  Inv t (selectionOf (toggles t s ns) (caseId t)).
Proof.
  intros Hwf. revert s. unfold toggles.
  induction ns as [|n ns IH]; intros s Hinv; [done|].
  cbn [foldl]. apply IH. rewrite selectionOf_flip. by apply Inv_toggle.
Qed.

(** C1: tri-state correctness after any sequence of toggles.  In a tree
    derived from the jobs of a case, starting from the cleared selection,
    whatever nodes are toggled and in whatever order, the state the store
    records for a case-level or file-level node that has a leaf
    descendant is selected iff all its leaf descendants are selected,
    unselected iff none of them is, and indeterminate otherwise. *)
Theorem tri_state_after_toggles
  (t : CaseNode) (s : RootState) (ns : list ExplorerNodeHashDigest)
  (n : ExplorerNodeHashDigest) (ls : list ExplorerNodeHashDigest) :
  wellFormed t ->
  nodesOf (selectedExplorerNodes s) (caseId t) = [] ->
  nodesOf (indeterminateExplorerNodes s) (caseId t) = [] ->
  n ∈ ancestors t ->
  leavesOf t n = Some ls ->
  ls <> [] ->
  (getState t (toggles t s ns) n = selected
   <-> Forall (fun j => j ∈ nodesOf (selectedExplorerNodes (toggles t s ns)) (caseId t)) ls) /\
  (getState t (toggles t s ns) n = unselected
   <-> Forall (fun j => j ∉ nodesOf (selectedExplorerNodes (toggles t s ns)) (caseId t)) ls) /\
  (getState t (toggles t s ns) n = indeterminate
   <-> ~ Forall (fun j => j ∈ nodesOf (selectedExplorerNodes (toggles t s ns)) (caseId t)) ls /\
       ~ Forall (fun j => j ∉ nodesOf (selectedExplorerNodes (toggles t s ns)) (caseId t)) ls).
Proof.
  intros Hwf Hsel Hind Hn Hls Hne.
  assert (Inv t (selectionOf (toggles t s ns) (caseId t))) as [Hleaf Hfile Hcase].
  { apply Inv_toggles; [done|]. unfold selectionOf. rewrite Hsel, Hind.
    by apply Inv_empty. }
  pose proof (leavesOf_leaves _ _ _ Hls) as Hsub.
  assert (getState t (toggles t s ns) n
          = summary (stateOf (selectionOf (toggles t s ns) (caseId t)) <$> ls)) as ->.
  { unfold getState.
    destruct (leavesOf_ancestor t n Hn) as [[-> Hall] | (f & Hf & <- & Hjobs)].
    - rewrite Hall in Hls. injection Hls as <-. by apply Hcase.
    - rewrite Hjobs in Hls. injection Hls as <-. by apply Hfile. }
  apply (summary_spec (selectionOf (toggles t s ns) (caseId t)) ls Hne).
  intros j Hj. apply Hleaf. by apply Hsub.
Qed.

(** What a toggle does to the leaves: those of the toggled node take the
    opposite of its state, the others keep theirs. *)
Lemma toggle_sets_the_leaves t sel n ls j :
  wellFormed t ->
  leavesOf t n = Some ls ->
  j ∈ leaves t ->
  stateOf (toggle t sel n) j
  = if bool_decide (j ∈ ls) then opposite (stateOf sel n) else stateOf sel j.
Proof.
  intros [Hdup Hlevels Hfiles] Hls Hj. unfold toggle. rewrite Hls. cbv zeta.
  unfold ancestors in Hdup, Hlevels. apply NoDup_cons in Hdup as [Hcase_id Hdup].
  unfold refreshCase. rewrite stateOf_setState, bool_decide_false.
  - destruct (stateOf_refreshFiles ls (fileNodes t)
                (foldr (fun j => setState j (opposite (stateOf sel n))) sel ls) Hdup)
      as [Hother _].
    { intros f j' Hf Hj' Hin. apply (Hlevels j'); [by right|].
      apply elem_of_leaves. eauto. }
    rewrite Hother; [apply stateOf_setLeaves|].
    intros Hin. apply (Hlevels j); [by right | done].
  - intros ->. apply (Hlevels (caseId t)); [by left | done].
Qed.

End SelectionTreeFacts.

Section SelectionTreeExamples.
Import SelectionTree CampaignManagerProvider.

Lemma renameFooTree_nodes :
  renameFooTree
  = {| caseId := "case-1";
       fileNodes := [ {| fileId := "/b.ts"; jobs := ["job-move"] |};
                      {| fileId := "/c.ts"; jobs := ["job-rewrite"] |} ] |}.
Proof. vm_compute. reflexivity. Qed.

Lemma renameFooTree_wellFormed : wellFormed renameFooTree.
Proof.
  rewrite renameFooTree_nodes. split.
  - cbn. repeat (apply NoDup_cons; split);
      [ intros Hin .. | apply NoDup_nil_2 ];
      repeat (apply elem_of_cons in Hin as [Hin|Hin]; [discriminate|]);
      by apply elem_of_nil in Hin.
  - cbn. intros a Ha Hin.
    repeat (apply elem_of_cons in Ha as [->|Ha];
            [repeat (apply elem_of_cons in Hin as [Hin|Hin]; [discriminate|]);
             by apply elem_of_nil in Hin|]).
    by apply elem_of_nil in Ha.
  - repeat constructor; discriminate.
Qed.

(** The scenario of the spec: toggling the file node of [b.ts] selects
    the move and nothing else, and the case becomes indeterminate. *)
Lemma toggle_file_node_selects_its_job :
  selectionOf (toggles renameFooTree cleared ["/b.ts"]) "case-1"
  = {| selectedNodes := ["job-move"; "/b.ts"]; indeterminateNodes := ["case-1"] |} /\
  getState renameFooTree (toggles renameFooTree cleared ["/b.ts"]) "job-rewrite"
  = unselected /\
  getState renameFooTree (toggles renameFooTree cleared ["/b.ts"]) "case-1"
  = indeterminate.
Proof. repeat split; vm_compute; reflexivity. Qed.

Lemma tri_state_after_toggles_witness :
  getState renameFooTree (toggles renameFooTree cleared ["/b.ts"; "job-rewrite"; "/b.ts"])
    "case-1" = indeterminate /\
  ~ Forall (fun j => j ∈ nodesOf
                          (selectedExplorerNodes
                             (toggles renameFooTree cleared
                                ["/b.ts"; "job-rewrite"; "/b.ts"])) "case-1")
      ["job-move"; "job-rewrite"] /\
  ~ Forall (fun j => j ∉ nodesOf
                          (selectedExplorerNodes
                             (toggles renameFooTree cleared
                                ["/b.ts"; "job-rewrite"; "/b.ts"])) "case-1")
      ["job-move"; "job-rewrite"].
Proof.
  destruct (tri_state_after_toggles renameFooTree cleared
              ["/b.ts"; "job-rewrite"; "/b.ts"] "case-1" ["job-move"; "job-rewrite"]
              renameFooTree_wellFormed eq_refl eq_refl)
    as (_ & _ & Hindeterminate).
  - left.
  - reflexivity.
  - discriminate.
  - split; [vm_compute; reflexivity|].
    apply Hindeterminate. vm_compute. reflexivity.
Defined.

(** The correctness is one of the toggles, not of the records: a store
    may record the case as selected while none of its jobs is. *)
Lemma recorded_states_need_not_agree :
  stateOf {| selectedNodes := ["case-1"]; indeterminateNodes := [] |} "case-1"
  = selected /\
  leavesOf renameFooTree "case-1" = Some ["job-move"; "job-rewrite"] /\
  Forall (fun j => j ∉ ["case-1"]) ["job-move"; "job-rewrite"] /\
  ~ Inv renameFooTree {| selectedNodes := ["case-1"]; indeterminateNodes := [] |}.
Proof.
  split; [reflexivity|]. split; [vm_compute; reflexivity|]. split.
  - repeat constructor; intros Hin;
      repeat (apply elem_of_cons in Hin as [Hin|Hin]; [discriminate|]);
      by apply elem_of_nil in Hin.
  - intros [_ _ Hcase]. rewrite renameFooTree_nodes in Hcase.
    specialize (Hcase ltac:(discriminate)). vm_compute in Hcase. discriminate.
Qed.

End SelectionTreeExamples.

(** ** The execution queue *)

Section ExecutionQueueFacts.
Import ExecutionQueue.

Lemma theRunning_Some q i : theRunning q = Some i -> requests q !! i = Some running.
Proof.
  unfold theRunning. intros Hfind.
  destruct (list_find (fun s => s = running) (requests q)) as [[j s]|] eqn:Hf;
    [|done].
  injection Hfind as <-.
  apply list_find_Some in Hf as (Hj & -> & _). done.
Qed.

(** A step leaves a halted request halted and publishes no [caseCreated]
    for it. *)
Lemma step_halted q c r :
  requests q !! r = Some halted ->
  requests (step q c) !! r = Some halted /\
  exists events,
    published (step q c) = published q ++ events /\ caseCreated r ∉ events.
Proof.
  intros Hr.
  assert (forall i s, requests q !! i = Some s -> s <> halted ->
                      forall s', <[i := s']> (requests q) !! r = Some halted)
    as Hinsert.
  { intros i s Hi Hs s'. rewrite list_lookup_insert_ne; [done|].
    intros ->. congruence. }
  destruct c; simpl.
  - split; [by apply lookup_app_l_Some|].
    exists []. split; [by rewrite app_nil_r | apply not_elem_of_nil].
  - destruct (theRunning q) as [i|].
    { split; [done|]. exists []. split; [by rewrite app_nil_r | apply not_elem_of_nil]. }
    destruct (list_find (fun s => s = queued) (requests q)) as [[i s]|] eqn:Hf.
    + apply list_find_Some in Hf as (Hi & -> & _). simpl. split.
      * by apply (Hinsert i queued).
      * exists []. split; [by rewrite app_nil_r | apply not_elem_of_nil].
    + split; [done|]. exists []. split; [by rewrite app_nil_r | apply not_elem_of_nil].
  - destruct (theRunning q) as [i|]; simpl.
    + split; [done|]. eexists. split; [reflexivity|].
      intros Hin. apply list_elem_of_singleton in Hin. discriminate.
    + split; [done|]. exists []. split; [by rewrite app_nil_r | apply not_elem_of_nil].
  - destruct (theRunning q) as [i|] eqn:Hrun; simpl.
    + apply theRunning_Some in Hrun. split.
      * by apply (Hinsert i running).
      * eexists. split; [reflexivity|].
        intros Hin. apply list_elem_of_singleton in Hin. injection Hin as ->. congruence.
    + split; [done|]. exists []. split; [by rewrite app_nil_r | apply not_elem_of_nil].
  - destruct (theRunning q) as [i|] eqn:Hrun; simpl.
    + apply theRunning_Some in Hrun. split.
      * by apply (Hinsert i running).
      * eexists. split; [reflexivity|].
        intros Hin. apply list_elem_of_singleton in Hin. discriminate.
    + split; [done|]. exists []. split; [by rewrite app_nil_r | apply not_elem_of_nil].
  - split.
    + by rewrite list_lookup_fmap, Hr.
    + eexists. split; [reflexivity|].
      intros Hin. apply list_elem_of_singleton in Hin. discriminate.
Qed.

Lemma run_halted cs : forall q r,
  requests q !! r = Some halted ->
  requests (run q cs) !! r = Some halted /\
  exists events,
    published (run q cs) = published q ++ events /\ caseCreated r ∉ events.
Proof.
  induction cs as [|c cs IH]; intros q r Hr.
  - split; [done|]. exists []. split; [by rewrite app_nil_r | apply not_elem_of_nil].
  - destruct (step_halted q c r Hr) as (Hr1 & ev1 & Hp1 & Hn1).
    destruct (IH (step q c) r Hr1) as (Hr2 & ev2 & Hp2 & Hn2).
    change (run q (c :: cs)) with (run (step q c) cs).
    split; [done|]. exists (ev1 ++ ev2). split.
    + rewrite Hp2, Hp1. by rewrite app_assoc.
    + rewrite elem_of_app. tauto.
Qed.

(** C8: a request that is running or queued when the halt command
    arrives is halted by it and stays halted whatever follows, so it is
    never run afterwards, and no [caseCreated] is published for it after
    the halt. *)
Theorem halt_is_final (q : Queue) (r : nat) (cs : list Command) :
  requests q !! r = Some running \/ requests q !! r = Some queued ->
  requests (step q haltExecution) !! r = Some halted /\
  requests (run (step q haltExecution) cs) !! r = Some halted /\
  requests (run (step q haltExecution) cs) !! r <> Some running /\
  caseCreated r ∉ publishedSince q (run (step q haltExecution) cs).
Proof.
  intros Hr.
  assert (requests (step q haltExecution) !! r = Some halted) as Hhalted.
  { simpl. rewrite list_lookup_fmap. by destruct Hr as [-> | ->]. }
  destruct (run_halted cs _ r Hhalted) as (Hrun & events & Hpub & Hnot).
  split; [done|]. split; [done|]. split; [by rewrite Hrun|].
  unfold publishedSince. rewrite Hpub. simpl.
  rewrite <- app_assoc, drop_app_length.
  rewrite elem_of_app, list_elem_of_singleton. intros [Hin | Hin]; [discriminate | done].
Qed.

Lemma halt_is_final_witness :
  requests
    (run (step {| requests := [completed; running; queued]; published := [caseCreated 0] |}
            haltExecution)
       [engineCompleted; startNext; enqueueRun; startNext; engineCompleted]) !! 2
  = Some halted /\
  caseCreated 2 ∉
    publishedSince {| requests := [completed; running; queued]; published := [caseCreated 0] |}
      (run (step {| requests := [completed; running; queued]; published := [caseCreated 0] |}
              haltExecution)
         [engineCompleted; startNext; enqueueRun; startNext; engineCompleted]).
Proof.
  destruct (halt_is_final
              {| requests := [completed; running; queued]; published := [caseCreated 0] |}
              2 [engineCompleted; startNext; enqueueRun; startNext; engineCompleted])
    as (_ & Hhalted & _ & Hnone); [right; reflexivity|].
  split; [exact Hhalted | exact Hnone].
Defined.

End ExecutionQueueFacts.

(** * Further properties of the embedded code *)

(** ** CampaignManagerProvider: job map, elements, latest job *)

Section CampaignManagerFacts.
Import Jobs CampaignManagerProvider.

Lemma omap_ext_Forall {A B} (f g : A -> option B) l :
  Forall (fun x => f x = g x) l -> omap f l = omap g l.
Proof.
  induction 1 as [|x l Hx _ IH]; [done|].
  cbn [omap list_omap]. fold (omap f l). fold (omap g l). by rewrite Hx, IH.
Qed.

Lemma buildJobMap_fold (getJob : JobHash -> option Job) l (acc : gmap JobHash Job) h :
  (forall h job, getJob h = Some job -> hash job = h) ->
  foldl (fun (map : gmap JobHash Job) jobHash =>
           match getJob jobHash with
           | None => map
           | Some job => <[hash job := job]> map
           end) acc l !! h
  = match (if decide (h ∈ l) then getJob h else None) with
    | Some job => Some job
    | None => acc !! h
    end.
Proof.
  intros Hconsistent. revert acc.
  induction l as [|x l IH]; intros acc; simpl.
  - destruct (decide (h ∈ [])) as [Hin|]; [by apply elem_of_nil in Hin | done].
  - rewrite IH.
    destruct (decide (h ∈ l)) as [Hl|Hl].
    + destruct (decide (h ∈ x :: l)) as [|Hxl]; [|by destruct Hxl; right].
      destruct (getJob h) as [job|] eqn:Hh; [done|].
      destruct (getJob x) as [jx|] eqn:Hx; [|done].
      rewrite lookup_insert_ne; [done|].
      intros Heq. pose proof (Hconsistent _ _ Hx). congruence.
    + destruct (decide (h = x)) as [->|Hne].
      * destruct (decide (x ∈ x :: l)) as [|Hxl]; [|by destruct Hxl; left].
        destruct (getJob x) as [jx|] eqn:Hx; [|done].
        rewrite (Hconsistent _ _ Hx). by rewrite lookup_insert_eq.
      * destruct (decide (h ∈ x :: l)) as [Hin|_].
        { apply elem_of_cons in Hin as [?|?]; done. }
        destruct (getJob x) as [jx|] eqn:Hx; [|done].
        rewrite lookup_insert_ne; [done|].
        intros Heq. pose proof (Hconsistent _ _ Hx). congruence.
Qed.

(** X1: when the job manager answers each hash with a job of that hash,
    the job map holds exactly the jobs the cases refer to, under the hashes
    the cases use, and so every case finds in it the jobs the job manager
    has for its hashes, in the order of the case. *)
Theorem buildJobMap_resolves (getJob : JobHash -> option Job)
  (cases : list Cases.CaseWithJobHashes) (kase : Cases.CaseWithJobHashes) :
  (forall h job, getJob h = Some job -> hash job = h) ->
  kase ∈ cases ->
  (forall h, __buildJobMap getJob cases !! h
             = if decide (h ∈ cases ≫= Cases.jobHashes) then getJob h else None) /\
  jobsOf (__buildJobMap getJob cases) kase = omap getJob (Cases.jobHashes kase).
Proof.
  intros Hconsistent Hkase.
  assert (forall h, __buildJobMap getJob cases !! h
                    = if decide (h ∈ cases ≫= Cases.jobHashes) then getJob h else None)
    as Hlookup.
  { intros h. unfold __buildJobMap. rewrite buildJobMap_fold by done.
    destruct (decide _); [|done]. by destruct (getJob h). }
  split; [done|].
  unfold jobsOf. apply omap_ext_Forall.
  apply Forall_forall. intros h Hh. rewrite Hlookup.
  rewrite decide_True; [done|]. apply list_elem_of_bind. eauto.
Qed.

Lemma buildJobMap_resolves_witness :
  jobsOf (__buildJobMap (fun h => twoRewritesJobMap !! h) [twoRewrites; emptyRun]) twoRewrites
  = [firstRewrite; secondRewrite].
Proof.
  refine (proj2 (buildJobMap_resolves (fun h => twoRewritesJobMap !! h)
                   [twoRewrites; emptyRun] twoRewrites _ _)).
  - intros h job Hjob.
    destruct (decide (h = "job-1")) as [->|H1].
    { vm_compute in Hjob. by injection Hjob as <-. }
    destruct (decide (h = "job-2")) as [->|H2].
    { vm_compute in Hjob. by injection Hjob as <-. }
    unfold twoRewritesJobMap in Hjob.
    rewrite lookup_insert_ne, lookup_singleton_ne in Hjob by done. done.
  - left.
Defined.

Lemma elem_of_sort {A} (compare : A -> A -> Z) (x : A) l : x ∈ sort compare l <-> x ∈ l.
Proof. by rewrite sort_Permutation. Qed.

Lemma sort_nil_inv {A} (compare : A -> A -> Z) l : sort compare l = [] -> l = [].
Proof.
  intros Hnil. pose proof (sort_Permutation compare l) as Hperm.
  rewrite Hnil in Hperm. by apply Permutation_nil_l in Hperm.
Qed.

Lemma elem_of_result `{Comparators} root cases jobMap ce :
  ce ∈ (__buildCaseElementsAndLatestJob root cases jobMap).1 <->
  exists kase,
    kase ∈ cases /\
    ce = sortChildren
           (buildCaseElement kase
              (fileElements root (Cases.hash kase) (jobsOf jobMap kase))).
Proof.
  unfold __buildCaseElementsAndLatestJob. cbv zeta. cbn [fst].
  rewrite list_elem_of_fmap. setoid_rewrite elem_of_sort.
  unfold unsortedCaseElements. setoid_rewrite list_elem_of_fmap.
  split.
  - intros (ce0 & -> & kase & -> & Hkase). eauto.
  - intros (kase & Hkase & ->). eauto.
Qed.

Lemma elem_of_sorted_children `{Comparators} ce0 f :
  f ∈ caseElement_children (sortChildren ce0) <->
  exists f0,
    f0 ∈ caseElement_children ce0 /\
    f = {| fileElement_caseHash := fileElement_caseHash f0;
           fileElement_label := fileElement_label f0;
           fileElement_children := sort compareJobElements (fileElement_children f0) |}.
Proof.
  unfold sortChildren. cbn [caseElement_children].
  rewrite list_elem_of_fmap. setoid_rewrite elem_of_sort.
  split.
  - intros (f0 & -> & Hf0). eauto.
  - intros (f0 & Hf0 & ->). eauto.
Qed.

(** X2: in the elements the function returns, a file element belongs to
    a case that was given and stands for a uri of that case's set; it is
    labelled with the path of the uri without the root path, and under it
    are the jobs of the case whose [newUri] or [oldUri] reads as that uri,
    each once per occurrence in the case and no other job; it is never
    empty. *)
Theorem file_elements_list_their_jobs `{Comparators}
  (root : string) (cases : list Cases.CaseWithJobHashes) (jobMap : gmap JobHash Job)
  (ce : CaseElement) (f : FileElement) :
  ce ∈ (__buildCaseElementsAndLatestJob root cases jobMap).1 ->
  f ∈ caseElement_children ce ->
  exists kase uri,
    kase ∈ cases /\
    caseElement_hash ce = Cases.hash kase /\
    uri ∈ uris (jobsOf jobMap kase) /\
    fileElement_caseHash f = Cases.hash kase /\
    fileElement_label f = removeFirst root (fsPath uri) /\
    fileElement_children f
      ≡ₚ (fun job => buildJobElement job root)
          <$> List.filter (concerns uri) (jobsOf jobMap kase) /\
    fileElement_children f <> [].
Proof.
  intros (kase & Hkase & ->)%elem_of_result (f0 & Hf0 & ->)%elem_of_sorted_children.
  cbn [buildCaseElement caseElement_children] in Hf0.
  unfold fileElements in Hf0.
  apply list_elem_of_fmap in Hf0 as ([uri js] & -> & Hgroup).
  pose proof (fileGroups_jobs _ _ _ Hgroup) as Hjs.
  pose proof (fileGroups_nonempty _ _ _ Hgroup) as Hne.
  assert (uri ∈ uris (jobsOf jobMap kase)) as Huri.
  { unfold fileGroups in Hgroup.
    apply list_elem_of_fmap in Hgroup as (u & Heq & Hu). by inversion Heq; subst. }
  exists kase, uri. cbn. subst js.
  repeat split; try done.
  - apply sort_Permutation.
  - intros Hnil%sort_nil_inv. by apply fmap_nil_inv in Hnil.
Qed.

Lemma file_elements_list_their_jobs_witness :
  exists kase uri,
    kase ∈ [twoRewrites] /\
    "case-1" = Cases.hash kase /\
    uri ∈ uris (jobsOf twoRewritesJobMap kase) /\
    "case-1" = Cases.hash kase /\
    "/a.ts" = removeFirst "/repo" (fsPath uri) /\
    [buildJobElement firstRewrite "/repo"; buildJobElement secondRewrite "/repo"]
      ≡ₚ (fun job => buildJobElement job "/repo")
          <$> List.filter (concerns uri) (jobsOf twoRewritesJobMap kase) /\
    [buildJobElement firstRewrite "/repo"; buildJobElement secondRewrite "/repo"] <> [].
Proof.
  refine (@file_elements_list_their_jobs keepOrder "/repo" [twoRewrites] twoRewritesJobMap
            {| caseElement_hash := "case-1";
               caseElement_label := "rename-foo";
               caseElement_children :=
                 [buildFileElement "case-1" "/a.ts"
                    [buildJobElement firstRewrite "/repo";
                     buildJobElement secondRewrite "/repo"];
                  buildFileElement "case-1" "/a.ts"
                    [buildJobElement firstRewrite "/repo";
                     buildJobElement secondRewrite "/repo"]] |}
            (buildFileElement "case-1" "/a.ts"
               [buildJobElement firstRewrite "/repo"; buildJobElement secondRewrite "/repo"])
            _ _).
  - assert ((@__buildCaseElementsAndLatestJob keepOrder "/repo" [twoRewrites]
               twoRewritesJobMap).1
            = [ {| caseElement_hash := "case-1";
                   caseElement_label := "rename-foo";
                   caseElement_children :=
                     [buildFileElement "case-1" "/a.ts"
                        [buildJobElement firstRewrite "/repo";
                         buildJobElement secondRewrite "/repo"];
                      buildFileElement "case-1" "/a.ts"
                        [buildJobElement firstRewrite "/repo";
                         buildJobElement secondRewrite "/repo"]] |} ]) as ->
      by (vm_compute; reflexivity).
    left.
  - left.
Defined.

(** X3: when two target [Uri] values with the same reference are the
    same value, every job of a given case that resolves in the job map
    and has a target uri is listed in the result: under a file element of
    its case, labelled with the path of its target uri. *)
Theorem jobs_with_a_target_are_listed `{Comparators}
  (root : string) (cases : list Cases.CaseWithJobHashes) (jobMap : gmap JobHash Job)
  (kase : Cases.CaseWithJobHashes) (job : Job) (uri : Uri) :
  (forall j1 j2 u1 u2,
     j1 ∈ jobsOf jobMap kase -> j2 ∈ jobsOf jobMap kase ->
     targetUri j1 = Some u1 -> targetUri j2 = Some u2 ->
     uri_ref u1 = uri_ref u2 -> u1 = u2) ->
  kase ∈ cases ->
  job ∈ jobsOf jobMap kase ->
  targetUri job = Some uri ->
  exists ce f,
    ce ∈ (__buildCaseElementsAndLatestJob root cases jobMap).1 /\
    caseElement_hash ce = Cases.hash kase /\
    f ∈ caseElement_children ce /\
    fileElement_label f = removeFirst root (fsPath uri) /\
    buildJobElement job root ∈ fileElement_children f.
Proof.
  intros Hheap Hkase Hjob Htarget.
  assert (uri ∈ uris (jobsOf jobMap kase)) as Huri.
  { pose proof (targets_are_uris _ _ _ Hjob Htarget) as Href.
    apply list_elem_of_fmap in Href as (u0 & Href & Hu0).
    destruct (uris_are_targets _ _ Hu0) as (j0 & Hj0 & Ht0).
    by rewrite (Hheap job j0 uri u0 Hjob Hj0 Htarget Ht0 Href). }
  exists (sortChildren
            (buildCaseElement kase
               (fileElements root (Cases.hash kase) (jobsOf jobMap kase)))).
  exists {| fileElement_caseHash := Cases.hash kase;
            fileElement_label := removeFirst root (fsPath uri);
            fileElement_children :=
              sort compareJobElements
                ((fun job => buildJobElement job root)
                 <$> List.filter (concerns uri) (jobsOf jobMap kase)) |}.
  split; [apply elem_of_result; eauto|].
  split; [done|]. split.
  - apply elem_of_sorted_children.
    exists (buildFileElement (Cases.hash kase) (removeFirst root (fsPath uri))
              ((fun job => buildJobElement job root)
               <$> List.filter (concerns uri) (jobsOf jobMap kase))).
    split; [|done].
    cbn [buildCaseElement caseElement_children]. unfold fileElements, fileGroups.
    apply list_elem_of_fmap.
    exists (uri, List.filter (concerns uri) (jobsOf jobMap kase)).
    split; [done|]. apply list_elem_of_fmap. eauto.
  - split; [done|]. cbn [fileElement_children].
    apply elem_of_sort, list_elem_of_fmap. exists job. split; [done|].
    apply list_elem_of_In, filter_In. split; [by apply list_elem_of_In|].
    by apply targetUri_concerns.
Qed.

Lemma jobs_with_a_target_are_listed_witness :
  exists ce f,
    ce ∈ (@__buildCaseElementsAndLatestJob keepOrder "/repo"
            [emptyRun; SpecServices.renameFoo]
            {[ "job-move" := SpecServices.moveJob;
               "job-rewrite" := SpecServices.rewriteJob ]}).1 /\
    caseElement_hash ce = "case-1" /\
    f ∈ caseElement_children ce /\
    fileElement_label f = "/b.ts" /\
    buildJobElement SpecServices.moveJob "/repo" ∈ fileElement_children f.
Proof.
  refine (@jobs_with_a_target_are_listed keepOrder "/repo"
            [emptyRun; SpecServices.renameFoo]
            {[ "job-move" := SpecServices.moveJob;
               "job-rewrite" := SpecServices.rewriteJob ]}
            SpecServices.renameFoo SpecServices.moveJob
            {| uri_ref := 2; uri_toString := "file:///repo/b.ts"; fsPath := "/repo/b.ts" |}
            _ _ _ _).
  - assert (jobsOf {[ "job-move" := SpecServices.moveJob;
                      "job-rewrite" := SpecServices.rewriteJob ]} SpecServices.renameFoo
            = [SpecServices.moveJob; SpecServices.rewriteJob]) as ->
      by (vm_compute; reflexivity).
    intros j1 j2 u1 u2 Hj1 Hj2 Ht1 Ht2 Href.
    apply elem_of_cons in Hj1 as [->|Hj1]; [|apply list_elem_of_singleton in Hj1 as ->];
      apply elem_of_cons in Hj2 as [->|Hj2];
      try apply list_elem_of_singleton in Hj2 as ->;
      vm_compute in Ht1; vm_compute in Ht2;
      injection Ht1 as <-; injection Ht2 as <-;
      first [reflexivity | discriminate Href].
  - right. left.
  - vm_compute. left.
  - reflexivity.
Defined.

Lemma foldl_later_bind (jobMap : gmap JobHash Job) cases acc :
  foldl (fun latestJob kase => foldl later latestJob (jobsOf jobMap kase)) acc cases
  = foldl later acc (jobsMet jobMap cases).
Proof.
  revert acc. induction cases as [|kase cases IH]; intros acc; [done|].
  unfold jobsMet. rewrite bind_cons, foldl_app. apply IH.
Qed.

Lemma foldl_later_Some a l :
  exists r,
    foldl later (Some a) l = Some r /\
    ((r = a /\ Forall (fun j => (createdAt j <= createdAt a)%Z) l) \/
     (exists l1 l2,
        l = l1 ++ r :: l2 /\
        (createdAt a < createdAt r)%Z /\
        Forall (fun j => (createdAt j < createdAt r)%Z) l1 /\
        Forall (fun j => (createdAt j <= createdAt r)%Z) l2)).
Proof.
  revert a. induction l as [|x l IH]; intros a.
  - exists a. split; [done|]. left. split; [done | constructor].
  - cbn [foldl]. unfold later at 2.
    destruct (createdAt a <? createdAt x)%Z eqn:Hlt.
    + apply Z.ltb_lt in Hlt.
      destruct (IH x) as (r & Hr & [[-> Hall] | (l1 & l2 & -> & Hxr & H1 & H2)]).
      * exists x. split; [done|]. right. exists [], l. repeat split; try done.
      * exists r. split; [done|]. right. exists (x :: l1), l2.
        repeat split; try done; [lia|]. constructor; [done|done].
    + apply Z.ltb_ge in Hlt.
      destruct (IH a) as (r & Hr & [[-> Hall] | (l1 & l2 & -> & Har & H1 & H2)]).
      * exists a. split; [done|]. left. split; [done|]. by constructor.
      * exists r. split; [done|]. right. exists (x :: l1), l2.
        repeat split; try done. constructor; [lia | done].
Qed.

(** X4: the latest job returned with the elements is absent exactly when
    no job hash of any case resolves in the job map; otherwise it is the
    first of the jobs met whose [createdAt] is the greatest: every job met
    before it is strictly older, and none met after it is newer. *)
Theorem latestJob_is_first_newest `{Comparators}
  (root : string) (cases : list Cases.CaseWithJobHashes) (jobMap : gmap JobHash Job) :
  match (__buildCaseElementsAndLatestJob root cases jobMap).2 with
  | None => jobsMet jobMap cases = []
  | Some latest =>
      exists before after,
        jobsMet jobMap cases = before ++ latest :: after /\
        Forall (fun j => (createdAt j < createdAt latest)%Z) before /\
        Forall (fun j => (createdAt j <= createdAt latest)%Z) after
  end.
Proof.
  unfold __buildCaseElementsAndLatestJob. cbv zeta. cbn [snd].
  rewrite foldl_later_bind.
  destruct (jobsMet jobMap cases) as [|a l]; [done|].
  cbn [foldl]. change (later None a) with (Some a).
  destruct (foldl_later_Some a l) as (r & -> & [[-> Hall] | (l1 & l2 & -> & Har & H1 & H2)]).
  - exists [], l. repeat split; [constructor | done].
  - exists (a :: l1), l2. repeat split; [|done]. by constructor.
Qed.

Lemma result_hashes `{Comparators} root cases jobMap :
  caseElement_hash <$> (__buildCaseElementsAndLatestJob root cases jobMap).1
    ≡ₚ Cases.hash <$> cases.
Proof.
  unfold __buildCaseElementsAndLatestJob. cbv zeta. cbn [fst].
  rewrite <- list_fmap_compose, sort_Permutation.
  unfold unsortedCaseElements. by rewrite <- list_fmap_compose.
Qed.

(** X5: the function returns one case element per case it is given, an
    empty run included: the hashes of the elements are those of the cases,
    up to the order the comparator puts them in. *)
Theorem case_elements_are_the_cases `{Comparators}
  (root : string) (cases : list Cases.CaseWithJobHashes) (jobMap : gmap JobHash Job) :
  caseElement_hash <$> (__buildCaseElementsAndLatestJob root cases jobMap).1
    ≡ₚ Cases.hash <$> cases /\
  length (__buildCaseElementsAndLatestJob root cases jobMap).1 = length cases.
Proof.
  pose proof (result_hashes root cases jobMap) as Hperm.
  split; [done|].
  apply Permutation_length in Hperm. by rewrite !length_fmap in Hperm.
Qed.

(** The loop of [__onUpdateElementsMessage] over the case elements. *)
Lemma buildCaseTree_fold (es : list CaseElement)
  (acc : list CaseTreeNode * Provider) :
  let r :=
    foldl (fun (acc : list CaseTreeNode * Provider) element =>
             let '(node, q') := __buildCaseTree element acc.2 in
             ((acc.1 ++ [node])%list, q'))
      acc es in
  __view r.2 = __view acc.2 /\
  id <$> r.1 = (id <$> acc.1) ++ (caseElement_hash <$> es) /\
  (forall e, e ∈ es ->
     exists node,
       __treeMap r.2 !! caseElement_hash e = Some node /\
       id node = caseElement_hash e /\ caseApplied node = false).
Proof.
  induction es as [|e es IH] using rev_ind; cbv zeta.
  - simpl. rewrite app_nil_r. repeat split. intros e He. by apply elem_of_nil in He.
  - rewrite foldl_snoc. cbv zeta in IH. destruct IH as (Hview & Hids & Hmap).
    destruct (foldl _ acc es) as [nodes q] eqn:Hfold. cbn [fst snd] in *.
    unfold __buildCaseTree. cbn [fst snd __view __treeMap].
    split; [done|]. split.
    + rewrite !fmap_app, Hids. cbn. by rewrite app_assoc.
    + intros e' [He'|He']%elem_of_app.
      * destruct (decide (caseElement_hash e = caseElement_hash e')) as [Heq|Hne].
        -- rewrite <- Heq, lookup_insert_eq. eexists. repeat split.
        -- rewrite lookup_insert_ne by done. by apply Hmap.
      * apply list_elem_of_singleton in He' as ->.
        rewrite lookup_insert_eq. eexists. repeat split.
Qed.

Lemma treeMap_postMessage m q : __treeMap (__postMessage m q) = __treeMap q.
Proof. unfold __postMessage. by destruct (__view q). Qed.

Lemma treeMap_selectCase h q : __treeMap (__selectCase h q) = __treeMap q.
Proof. unfold __selectCase. destruct (_ !! h); by rewrite ?treeMap_postMessage. Qed.

(** X6: after an update, every case the update was given has a node in
    the tree map, filed under the hash of the case and carrying it as its
    id, not yet applied. *)
Theorem onUpdateElementsMessage_registers_cases `{Comparators}
  (root : string) (cases : list Cases.CaseWithJobHashes) (jobMap : gmap JobHash Job)
  (newCaseHash : option CaseHash) (p : Provider) (kase : Cases.CaseWithJobHashes) :
  kase ∈ cases ->
  exists node,
    __treeMap (__onUpdateElementsMessage root cases jobMap newCaseHash p)
      !! Cases.hash kase = Some node /\
    id node = Cases.hash kase /\
    caseApplied node = false.
Proof.
  intros Hkase.
  assert (exists e, e ∈ (__buildCaseElementsAndLatestJob root cases jobMap).1 /\
                    caseElement_hash e = Cases.hash kase) as (e & He & Hhash).
  { assert (Cases.hash kase
            ∈ caseElement_hash <$> (__buildCaseElementsAndLatestJob root cases jobMap).1)
      as Hin.
    { rewrite result_hashes. apply list_elem_of_fmap. eauto. }
    apply list_elem_of_fmap in Hin as (e & Heq & He). eauto. }
  unfold __onUpdateElementsMessage. cbv zeta.
  pose proof (buildCaseTree_fold (__buildCaseElementsAndLatestJob root cases jobMap).1
                ([], p)) as Hfold.
  cbv zeta in Hfold. destruct Hfold as (_ & _ & Hmap).
  destruct (foldl _ ([], p) _) as [nodes p1]. cbn [snd] in Hmap.
  destruct (Hmap e He) as (node & Hnode & Hid & Happlied).
  exists node. rewrite <- Hhash.
  destruct newCaseHash; rewrite ?treeMap_selectCase, treeMap_postMessage; done.
Qed.

Lemma onUpdateElementsMessage_registers_cases_witness :
  exists node,
    __treeMap
      (@__onUpdateElementsMessage keepOrder "/repo" [emptyRun; twoRewrites]
         twoRewritesJobMap None {| __view := None; __treeMap := ∅ |})
      !! "case-1" = Some node /\
    id node = "case-1" /\
    caseApplied node = false.
Proof.
  apply (@onUpdateElementsMessage_registers_cases keepOrder "/repo"
           [emptyRun; twoRewrites] twoRewritesJobMap None
           {| __view := None; __treeMap := ∅ |} twoRewrites).
  right. left.
Defined.

(** X7: an update with a resolved view posts the case nodes to it, one
    per case that was given, as a [setView] message, whose nodes are
    absent when there is no case; after it, and only when the new case
    hash has a node in the tree map, it posts the selection of that
    node.  Nothing else is posted. *)
Theorem onUpdateElementsMessage_posts `{Comparators}
  (root : string) (cases : list Cases.CaseWithJobHashes) (jobMap : gmap JobHash Job)
  (newCaseHash : option CaseHash) (v : WebviewView) (treeMap : gmap CaseHash CaseTreeNode) :
  exists nodes,
    id <$> nodes ≡ₚ Cases.hash <$> cases /\
    __view (__onUpdateElementsMessage root cases jobMap newCaseHash
              {| __view := Some v; __treeMap := treeMap |})
    = Some
        {| posted :=
             posted v
             ++ setView (match cases with [] => None | _ => Some nodes end)
                :: match newCaseHash with
                   | Some h =>
                       match __treeMap
                               (__onUpdateElementsMessage root cases jobMap newCaseHash
                                  {| __view := Some v; __treeMap := treeMap |}) !! h with
                       | Some node => [selectCase node]
                       | None => []
                       end
                   | None => []
                   end |}.
Proof.
  pose proof (result_hashes root cases jobMap) as Hhashes.
  unfold __onUpdateElementsMessage. cbv zeta.
  pose proof (buildCaseTree_fold (__buildCaseElementsAndLatestJob root cases jobMap).1
                ([], {| __view := Some v; __treeMap := treeMap |})) as Hfold.
  cbv zeta in Hfold. destruct Hfold as (Hview & Hids & _).
  destruct (foldl _ ([], _) _) as [nodes p1]. cbn [fst snd __view] in Hview, Hids.
  assert (id <$> nodes
          = caseElement_hash <$> (__buildCaseElementsAndLatestJob root cases jobMap).1)
    as Hids' by exact Hids.
  clear Hids. rename Hids' into Hids.
  exists nodes. split; [by rewrite Hids|].
  assert ((if bool_decide (0 < length nodes)%nat then Some nodes else None)
          = match cases with [] => None | _ => Some nodes end) as ->.
  { assert (length nodes = length cases) as Hlen.
    { apply Permutation_length in Hhashes. rewrite <- Hids in Hhashes.
      by rewrite !length_fmap in Hhashes. }
    destruct cases; simpl in Hlen.
    - rewrite bool_decide_false; [done | lia].
    - rewrite bool_decide_true; [done | lia]. }
  destruct p1 as [view1 tm1]. cbn [__view] in Hview. subst view1.
  destruct newCaseHash as [h|]; [|reflexivity].
  rewrite treeMap_selectCase, treeMap_postMessage. cbn [__treeMap].
  unfold __selectCase. rewrite treeMap_postMessage. cbn [__treeMap].
  destruct (tm1 !! h) as [node|]; [|reflexivity].
  unfold __postMessage. cbn. by rewrite <- app_assoc.
Qed.

(** The loop of [__onUpdateElementsMessage] leaves the other hashes of
    the tree map alone. *)
Lemma buildCaseTree_fold_other (es : list CaseElement)
  (acc : list CaseTreeNode * Provider) (h : CaseHash) :
  h ∉ caseElement_hash <$> es ->
  __treeMap
    (foldl (fun (acc : list CaseTreeNode * Provider) element =>
              let '(node, q') := __buildCaseTree element acc.2 in
              ((acc.1 ++ [node])%list, q'))
       acc es).2 !! h
  = __treeMap acc.2 !! h.
Proof.
  revert acc. induction es as [|e es IH]; intros acc Hh; [done|].
  rewrite fmap_cons, not_elem_of_cons in Hh. destruct Hh as [Hne Hh].
  cbn [foldl]. rewrite IH by done.
  unfold __buildCaseTree. cbn [snd __treeMap]. by rewrite lookup_insert_ne.
Qed.

Lemma onUpdateElementsMessage_other `{Comparators} root cases jobMap newCaseHash p h :
  h ∉ Cases.hash <$> cases ->
  __treeMap (__onUpdateElementsMessage root cases jobMap newCaseHash p) !! h
  = __treeMap p !! h.
Proof.
  intros Hh. unfold __onUpdateElementsMessage. cbv zeta.
  pose proof (buildCaseTree_fold_other
                (__buildCaseElementsAndLatestJob root cases jobMap).1 ([], p) h) as Hfold.
  rewrite result_hashes in Hfold. specialize (Hfold Hh).
  destruct (foldl _ ([], p) _) as [nodes p1]. cbn [snd] in Hfold.
  destruct newCaseHash; by rewrite ?treeMap_selectCase, treeMap_postMessage.
Qed.

(** C6 (amended): selecting a case that never was in the tree is a no-op.
    When the tree map had no node for the hash and no update since listed
    a case of that hash, [__selectCase] posts nothing and leaves the
    provider, its view and its tree map as they were; it has no throwing
    path. *)
Theorem selectCase_unlisted_case_is_noop `{Comparators}
  (hash : CaseHash) (us : list Update) (p : Provider) :
  __treeMap p !! hash = None ->
  Forall (fun u => hash ∉ Cases.hash <$> update_cases u) us ->
  __selectCase hash (updates us p) = updates us p.
Proof.
  intros Hnone Hunlisted. apply selectCase_without_node.
  revert p Hnone. unfold updates.
  induction Hunlisted as [|u us Hu Hus IH]; intros p Hnone; [done|].
  cbn [foldl]. apply IH. unfold onUpdate.
  by rewrite onUpdateElementsMessage_other.
Qed.

End CampaignManagerFacts.

Section SelectCaseExamples.
Import CampaignManagerProvider.

Lemma selectCase_unlisted_case_is_noop_witness :
  __selectCase "case-9"
    (@updates keepOrder
       [ {| update_rootPath := "/repo"; update_cases := [emptyRun; twoRewrites];
            update_jobMap := twoRewritesJobMap; update_newCaseHash := Some "case-1" |};
         {| update_rootPath := "/repo"; update_cases := [emptyRun];
            update_jobMap := ∅; update_newCaseHash := None |} ]
       resolved)
  = @updates keepOrder
      [ {| update_rootPath := "/repo"; update_cases := [emptyRun; twoRewrites];
           update_jobMap := twoRewritesJobMap; update_newCaseHash := Some "case-1" |};
        {| update_rootPath := "/repo"; update_cases := [emptyRun];
           update_jobMap := ∅; update_newCaseHash := None |} ]
      resolved.
Proof.
  apply (@selectCase_unlisted_case_is_noop keepOrder "case-9").
  - reflexivity.
  - repeat constructor; cbn;
      intros Hin; repeat (apply elem_of_cons in Hin as [Hin|Hin]; [discriminate|]);
      by apply elem_of_nil in Hin.
Defined.

(** C6: a counterexample to the claim as stated.  A first update lists
    the case [case-1]; a second one lists no case, so the tree it shows
    has no node left.  The node of [case-1] is still in the tree map, and
    selecting the case posts that node to the view: the operation
    references a node that is no longer in the tree and is not a no-op. *)
Lemma selectCase_posts_a_cleared_case :
  __view (@updates keepOrder listedThenCleared resolved)
  = Some {| posted := [setView (Some [twoRewritesNode]); setView None] |} /\
  __view (__selectCase "case-1" (@updates keepOrder listedThenCleared resolved))
  = Some {| posted := [setView (Some [twoRewritesNode]); setView None;
                       selectCase twoRewritesNode] |} /\
  __selectCase "case-1" (@updates keepOrder listedThenCleared resolved)
  <> @updates keepOrder listedThenCleared resolved.
Proof.
  split; [vm_compute; reflexivity|].
  split; [vm_compute; reflexivity|].
  intros Heq. apply (f_equal __view) in Heq. vm_compute in Heq. discriminate.
Qed.

End SelectCaseExamples.

Lemma onUpdateElementsMessage_keeps_nodes_witness :
  is_Some
    (CampaignManagerProvider.__treeMap
       (@CampaignManagerProvider.__onUpdateElementsMessage
          CampaignManagerProvider.keepOrder "/repo" [] ∅ (Some "case-1")
          {| CampaignManagerProvider.__view :=
               Some {| CampaignManagerProvider.posted := [] |};
             CampaignManagerProvider.__treeMap :=
               {[ "case-1" :=
                    {| CampaignManagerProvider.id := "case-1";
                       CampaignManagerProvider.iconName := "case.svg";
                       CampaignManagerProvider.label := "rename-foo";
                       CampaignManagerProvider.caseApplied := false |} ]} |}) !! "case-1").
Proof.
  apply (@onUpdateElementsMessage_keeps_nodes CampaignManagerProvider.keepOrder).
  vm_compute. eauto.
Defined.

(** ** MainViewProvider.updateExecutionPath: what it leaves alone *)

Section UpdateExecutionPathFacts.
Import MainViewProvider.

(** X9: whatever its arguments and whatever the outcome of the check,
    [updateExecutionPath] touches nothing but the execution path of the
    codemod it is given: the paths of the other codemods, the cases, the
    jobs, the selection and the files are as before, and the earlier
    effects are still there, in order. *)
Theorem updateExecutionPath_frame
  (stat : string -> bool) (args : UpdateExecutionPathArgs) (p : Provider) (w : World) :
  (forall h, h <> arg_codemodHash args ->
     executionPaths (store (updateExecutionPath stat args p w)) !! h
     = executionPaths (store w) !! h) /\
  case_entities (store (updateExecutionPath stat args p w)) = case_entities (store w) /\
  job_entities (store (updateExecutionPath stat args p w)) = job_entities (store w) /\
  selectedCaseHash (store (updateExecutionPath stat args p w)) = selectedCaseHash (store w) /\
  applySelectedInProgress (store (updateExecutionPath stat args p w))
    = applySelectedInProgress (store w) /\
  selectedExplorerNodes (store (updateExecutionPath stat args p w))
    = selectedExplorerNodes (store w) /\
  indeterminateExplorerNodes (store (updateExecutionPath stat args p w))
    = indeterminateExplorerNodes (store w) /\
  files (updateExecutionPath stat args p w) = files w /\
  exists effects, trace (updateExecutionPath stat args p w) = trace w ++ effects.
Proof.
  unfold updateExecutionPath.
  destruct (__rootUri p), (stat (newPath args)),
    (bool_decide (Some (newPath args)
                  <> executionPaths (store w) !! arg_codemodHash args)
     && negb (default false (fromVSCodeCommand args))),
    (errorMessage args), (warningMessage args),
    (executionPaths (store w) !! arg_codemodHash args),
    (revertToPrevExecutionIfInvalid args); cbn;
    (split; [by intros h Hh; rewrite ?lookup_insert_ne|]);
    do 7 (split; [reflexivity|]);
    first [ by exists []; rewrite app_nil_r
          | eexists; by rewrite <- ?app_assoc ].
Qed.

(** X10: when there is no workspace root or the check of the new path
    fails, the stored execution paths are exactly what they were, for the
    given codemod too: a missing path stays missing and a persisted one is
    written back unchanged; the user is not told of a success. *)
Theorem updateExecutionPath_failure_keeps_paths
  (stat : string -> bool) (args : UpdateExecutionPathArgs) (p : Provider) (w : World) :
  __rootUri p = None \/ stat (newPath args) = false ->
  executionPaths (store (updateExecutionPath stat args p w)) = executionPaths (store w) /\
  ShowInformationMessage "Successfully updated the execution path."
    ∉ drop (length (trace w)) (trace (updateExecutionPath stat args p w)).
Proof.
  intros Hfail. unfold updateExecutionPath.
  destruct (__rootUri p) as [root|].
  - destruct Hfail as [|Hstat]; [done|]. rewrite Hstat.
    destruct (executionPaths (store w) !! arg_codemodHash args) as [old|] eqn:Hold.
    + split.
      * destruct (revertToPrevExecutionIfInvalid args), (errorMessage args),
          (warningMessage args); cbn; by apply insert_id.
      * destruct (revertToPrevExecutionIfInvalid args), (errorMessage args),
          (warningMessage args); cbn;
          rewrite <- ?app_assoc, drop_app_length; cbn;
          intros Hin;
          repeat (apply elem_of_cons in Hin as [Hin|Hin]; [discriminate|]);
          by apply elem_of_nil in Hin.
    + split.
      * by destruct (errorMessage args), (warningMessage args).
      * destruct (errorMessage args), (warningMessage args); cbn;
          rewrite <- ?app_assoc, ?drop_app_length, ?drop_all; cbn;
          intros Hin;
          repeat (apply elem_of_cons in Hin as [Hin|Hin]; [discriminate|]);
          by apply elem_of_nil in Hin.
  - cbn. split; [done|]. rewrite drop_app_length. intros Hin.
    apply list_elem_of_singleton in Hin. discriminate.
Qed.

Lemma updateExecutionPath_failure_keeps_paths_witness :
  executionPaths
    (store
       (updateExecutionPath (fun _ => false)
          {| newPath := "/repo/gone";
             arg_codemodHash := "codemod-2";
             errorMessage := Some "The path does not exist.";
             warningMessage := None;
             revertToPrevExecutionIfInvalid := true;
             fromVSCodeCommand := None |}
          {| __view := None;
             __rootUri :=
               Some {| uri_ref := 0; uri_toString := "file:///repo"; fsPath := "/repo" |} |}
          SpecServices.reviewing))
  = executionPaths (store SpecServices.reviewing).
Proof.
  refine (proj1 (updateExecutionPath_failure_keeps_paths (fun _ => false) _ _ _ _)).
  right. reflexivity.
Defined.

(** X11: submitting the path that is already stored, when it still
    exists, changes no stored path and shows no message; a path that
    differs from the stored one is stored, and the success is announced
    unless the update came from a VS Code command. *)
Theorem updateExecutionPath_success
  (stat : string -> bool) (args : UpdateExecutionPathArgs) (p : Provider) (w : World)
  (root : Uri) :
  __rootUri p = Some root ->
  stat (newPath args) = true ->
  executionPaths (store (updateExecutionPath stat args p w)) !! arg_codemodHash args
    = Some (newPath args) /\
  (executionPaths (store w) !! arg_codemodHash args = Some (newPath args) ->
   executionPaths (store (updateExecutionPath stat args p w)) = executionPaths (store w) /\
   trace (updateExecutionPath stat args p w)
   = trace w ++ [Dispatch (setExecutionPath (arg_codemodHash args) (newPath args))]) /\
  (executionPaths (store w) !! arg_codemodHash args <> Some (newPath args) ->
   trace (updateExecutionPath stat args p w)
   = trace w ++ Dispatch (setExecutionPath (arg_codemodHash args) (newPath args))
        :: (if fromVSCodeCommand args is Some true then []
            else [ShowInformationMessage "Successfully updated the execution path."])).
Proof.
  intros Hroot Hstat. unfold updateExecutionPath. rewrite Hroot, Hstat.
  split; [|split].
  - destruct (_ && _); cbn; by rewrite lookup_insert_eq.
  - intros Hsame. rewrite bool_decide_false by (intros Hne; by apply Hne).
    cbn. split; [by apply insert_id | done].
  - intros Hne. rewrite bool_decide_true by (intros Heq; by apply Hne).
    destruct (fromVSCodeCommand args) as [[]|]; cbn; by rewrite <- ?app_assoc.
Qed.

Lemma updateExecutionPath_success_witness :
  executionPaths
    (store
       (updateExecutionPath (fun _ => true)
          {| newPath := "/repo/lib";
             arg_codemodHash := "codemod-1";
             errorMessage := None;
             warningMessage := None;
             revertToPrevExecutionIfInvalid := false;
             fromVSCodeCommand := Some true |}
          {| __view := None;
             __rootUri :=
               Some {| uri_ref := 0; uri_toString := "file:///repo"; fsPath := "/repo" |} |}
          SpecServices.reviewing)) !! "codemod-1"
  = Some "/repo/lib".
Proof.
  refine (proj1 (updateExecutionPath_success (fun _ => true)
                   {| newPath := "/repo/lib";
                      arg_codemodHash := "codemod-1";
                      errorMessage := None;
                      warningMessage := None;
                      revertToPrevExecutionIfInvalid := false;
                      fromVSCodeCommand := Some true |}
                   _ SpecServices.reviewing
                   {| uri_ref := 0; uri_toString := "file:///repo"; fsPath := "/repo" |}
                   _ _));
    reflexivity.
Defined.

End UpdateExecutionPathFacts.

(** ** The apply and discard commands: errors and calls *)

Section CommandErrors.
Import Extension.
Context `{HC : HashCodecs} `{C : Collaborators}.

(** X12: however the apply command ends (a rejected argument, another
    case, no tree, a job manager that throws or returns), the in-progress
    flag is lowered when it has ended, and lowering it is the last thing
    the command does. *)
Theorem saveStagedJobs_always_lowers_the_flag (arg0 : unknown) (w : World) :
  applySelectedInProgress (store (saveStagedJobsToTheFileSystem arg0 w)) = false /\
  last (trace (saveStagedJobsToTheFileSystem arg0 w))
    = Some (Dispatch (setApplySelectedInProgress false)).
Proof.
  unfold saveStagedJobsToTheFileSystem.
  destruct (saveStagedJobsToTheFileSystem_try arg0 w) as [w1 c].
  destruct c; cbn; by rewrite last_snoc.
Qed.

(** X13: an argument that does not decode as a case hash makes both
    commands report the decoding error and nothing more.  The apply
    command sends the telemetry error, then shows the message, between
    raising and lowering its flag; the discard command shows the message,
    then sends the telemetry error, and leaves the store untouched.
    Neither calls the job manager, touches a file or changes the
    selection. *)
Theorem commands_report_an_invalid_argument (arg0 : unknown) (w : World) :
  caseHashCodec arg0 = None ->
  (trace (saveStagedJobsToTheFileSystem arg0 w)
   = trace w ++ [Dispatch (setApplySelectedInProgress true);
                 SendError "intuita.sourceControl.saveStagedJobsToTheFileSystem";
                 ShowErrorMessage (report arg0);
                 Dispatch (setApplySelectedInProgress false)] /\
   files (saveStagedJobsToTheFileSystem arg0 w) = files w /\
   selectedExplorerNodes (store (saveStagedJobsToTheFileSystem arg0 w))
   = selectedExplorerNodes (store w) /\
   indeterminateExplorerNodes (store (saveStagedJobsToTheFileSystem arg0 w))
   = indeterminateExplorerNodes (store w)) /\
  (trace (discardJobs arg0 w)
   = trace w ++ [ShowErrorMessage (report arg0); SendError "intuita.discardJobs"] /\
   files (discardJobs arg0 w) = files w /\
   store (discardJobs arg0 w) = store w).
Proof.
  intros Hdec.
  unfold saveStagedJobsToTheFileSystem, saveStagedJobsToTheFileSystem_try,
    discardJobs, discardJobs_try.
  rewrite Hdec. cbn. by rewrite <- !app_assoc.
Qed.

(** X14: invoked with the hash of the selected case, when the explorer
    tree exists and the job manager returns normally, the discard command
    asks the job manager exactly once, to delete the selected job hashes
    of the tree as the tree lists them, then clears the selected and the
    indeterminate nodes of the case; it does nothing else. *)
Theorem discardJobs_deletes_selected_jobs
  (arg0 : unknown) (w : World) (h : CaseHash) (tree : ExplorerTree)
  (s' : RootState) (fs' : gmap string string) :
  caseHashCodec arg0 = Some h ->
  selectedCaseHash (store w) = Some h ->
  selectExplorerTree (store w) workspaceFolder = Some tree ->
  deleteJobs (selectedJobHashes tree) (store w, files w) = (s', fs', None) ->
  trace (discardJobs arg0 w)
  = trace w ++ [DeleteJobs (selectedJobHashes tree);
                Dispatch (clearSelectedExplorerNodes h);
                Dispatch (clearIndeterminateExplorerNodes h)] /\
  store (discardJobs arg0 w)
  = reducer (clearIndeterminateExplorerNodes h)
      (reducer (clearSelectedExplorerNodes h) s') /\
  nodesOf (selectedExplorerNodes (store (discardJobs arg0 w))) h = [] /\
  nodesOf (indeterminateExplorerNodes (store (discardJobs arg0 w))) h = [] /\
  files (discardJobs arg0 w) = fs'.
Proof.
  intros Hdec Hsel Htree Hdelete.
  unfold discardJobs, discardJobs_try.
  rewrite Hdec. cbv zeta. rewrite Hsel.
  rewrite bool_decide_false by (intros Hne; by apply Hne).
  rewrite Htree. unfold callJobManager.
  change (store (emit _ w)) with (store w).
  change (files (emit _ w)) with (files w).
  rewrite Hdelete. cbn.
  repeat split; [by rewrite <- !app_assoc | apply nodesOf_insert_nil..].
Qed.

(** X15: a command calls the job manager at most once, and only for its
    own purpose: the apply command never asks for a deletion and the
    discard command never asks for an acceptance. *)
Theorem commands_call_the_job_manager_at_most_once (arg0 : unknown) (w : World) :
  (jobManagerCalls (saveStagedJobsToTheFileSystem arg0 w) = jobManagerCalls w \/
   exists jobHashes,
     jobManagerCalls (saveStagedJobsToTheFileSystem arg0 w)
     = jobManagerCalls w ++ [AcceptJobs jobHashes]) /\
  (jobManagerCalls (discardJobs arg0 w) = jobManagerCalls w \/
   exists jobHashes,
     jobManagerCalls (discardJobs arg0 w)
     = jobManagerCalls w ++ [DeleteJobs jobHashes]).
Proof.
  unfold jobManagerCalls, saveStagedJobsToTheFileSystem,
    saveStagedJobsToTheFileSystem_try, discardJobs, discardJobs_try.
  destruct (caseHashCodec arg0) as [h|]; cbv zeta.
  - change (selectedCaseHash (store (dispatch (setApplySelectedInProgress true) w)))
      with (selectedCaseHash (store w)).
    destruct (bool_decide (Some h <> selectedCaseHash (store w))).
    + split; left; cbn; rewrite <- ?app_assoc, ?List.filter_app; cbn;
        by rewrite ?app_nil_r.
    + split.
      * destruct (selectExplorerTree _ _) as [tree|].
        -- right. eexists. unfold callJobManager.
           destruct (acceptJobs _ _) as [[s1 fs1] [message|]]; cbn;
             rewrite <- ?app_assoc, ?List.filter_app; cbn; reflexivity.
        -- left. cbn. rewrite <- ?app_assoc, ?List.filter_app. cbn.
           by rewrite ?app_nil_r.
      * destruct (selectExplorerTree (store w) workspaceFolder) as [tree|].
        -- right. eexists. unfold callJobManager.
           destruct (deleteJobs _ _) as [[s1 fs1] [message|]]; cbn;
             rewrite <- ?app_assoc, ?List.filter_app; cbn; reflexivity.
        -- by left.
  - split; left; cbn; rewrite <- ?app_assoc, ?List.filter_app; cbn;
      by rewrite ?app_nil_r.
Qed.

End CommandErrors.

Section CommandErrorsExamples.
Import SpecServices.

Lemma commands_report_an_invalid_argument_witness :
  trace (Extension.discardJobs (UNumber 7) reviewing)
  = [ShowErrorMessage "Invalid value supplied to CaseHash";
     SendError "intuita.discardJobs"] /\
  files (Extension.discardJobs (UNumber 7) reviewing) = files reviewing /\
  store (Extension.discardJobs (UNumber 7) reviewing) = store reviewing.
Proof.
  exact (proj2 (commands_report_an_invalid_argument (UNumber 7) reviewing eq_refl)).
Defined.

Lemma discardJobs_deletes_selected_jobs_witness :
  trace (Extension.discardJobs (UString "case-1") reviewing)
  = [DeleteJobs ["job-move"];
     Dispatch (clearSelectedExplorerNodes "case-1");
     Dispatch (clearIndeterminateExplorerNodes "case-1")] /\
  files (Extension.discardJobs (UString "case-1") reviewing) = files reviewing.
Proof.
  destruct (discardJobs_deletes_selected_jobs (UString "case-1") reviewing "case-1"
              {| Extension.selectedJobHashes := ["job-move"] |}
              (dropJobs ["job-move"] (store reviewing)) (files reviewing))
    as (Htrace & _ & _ & _ & Hfiles); try (vm_compute; reflexivity).
  split; [exact Htrace | exact Hfiles].
Defined.

End CommandErrorsExamples.

(** ** The list offered by the command that runs a codemod within a path *)

Section RecentCodemods.
Import ExecuteCodemodWithinPath.

Lemma filter_split_Permutation {A} (f : A -> bool) l :
  List.filter f l ++ List.filter (fun x => negb (f x)) l ≡ₚ l.
Proof.
  induction l as [|x l IH]; [done|].
  simpl. destruct (f x); simpl.
  - by rewrite IH.
  - by rewrite <- Permutation_middle, IH.
Qed.

(** Sorting by the difference of a key puts the keys in ascending
    order. *)
Lemma insertSorted_by_key {A} (key : A -> Z) x l :
  StronglySorted (fun a b => (key a <= key b)%Z) l ->
  StronglySorted (fun a b => (key a <= key b)%Z)
    (CampaignManagerProvider.insertSorted (fun a b => (key a - key b)%Z) x l).
Proof.
  induction 1 as [|y l Hl IH Hy]; simpl.
  - repeat constructor.
  - destruct (0 <? key y - key x)%Z eqn:Hcmp.
    + apply Z.ltb_lt in Hcmp. constructor; [by constructor|].
      constructor; [lia|]. eapply Forall_impl; [exact Hy|]. intros z Hz. simpl in Hz. lia.
    + apply Z.ltb_ge in Hcmp. constructor; [done|].
      rewrite insertSorted_Permutation. constructor; [lia | done].
Qed.

Lemma sort_by_key {A} (key : A -> Z) l :
  StronglySorted (fun a b => (key a <= key b)%Z)
    (CampaignManagerProvider.sort (fun a b => (key a - key b)%Z) l).
Proof.
  unfold CampaignManagerProvider.sort.
  induction l as [|x l IH] using rev_ind; [constructor|].
  rewrite foldl_snoc. by apply insertSorted_by_key.
Qed.

Lemma StronglySorted_reverse {A} (R : relation A) l :
  StronglySorted R l -> StronglySorted (fun a b => R b a) (reverse l).
Proof.
  induction 1 as [|x l Hl IH Hx]; [constructor|].
  rewrite reverse_cons. apply StronglySorted_app_2; [|done|repeat constructor].
  intros x1 x2 Hx1 Hx2. apply list_elem_of_singleton in Hx2 as ->.
  rewrite elem_of_reverse in Hx1. rewrite Forall_forall in Hx. by apply Hx.
Qed.

Lemma sortedCodemodList_rearranges
  (top5 : list CodemodHash) (codemodList : list CodemodEntry) :
  sortedCodemodList top5 codemodList ≡ₚ codemodList.
Proof.
  unfold sortedCodemodList, top5RecentCodemods.
  rewrite reverse_Permutation, sort_Permutation.
  apply filter_split_Permutation.
Qed.

(** X16: the list offered to the user holds every codemod of the store
    exactly as often as the store does: ordering the recent ones first
    loses none and repeats none, and so the user is offered one item per
    codemod. *)
Theorem sortedCodemodList_Permutation
  (top5 : list CodemodHash) (codemodList : list CodemodEntry) :
  sortedCodemodList top5 codemodList ≡ₚ codemodList /\
  length (quickPickItems top5 codemodList) = length codemodList /\
  label <$> quickPickItems top5 codemodList ≡ₚ name <$> codemodList.
Proof.
  pose proof (sortedCodemodList_rearranges top5 codemodList) as Hperm.
  split; [done|]. unfold quickPickItems. split.
  - rewrite length_fmap. by apply Permutation_length.
  - rewrite <- list_fmap_compose. by rewrite Hperm.
Qed.

(** X17: the list starts with the recent codemods, the most recently
    used first (ordered by falling position among the recent hashes), and
    goes on with the others, in the order the store lists them. *)
Theorem sortedCodemodList_recent_first
  (top5 : list CodemodHash) (codemodList : list CodemodEntry) :
  exists recent,
    sortedCodemodList top5 codemodList
    = recent
      ++ List.filter (fun codemod => negb (includes top5 (hashDigest codemod)))
           codemodList /\
    Forall (fun codemod => hashDigest codemod ∈ top5) recent /\
    StronglySorted
      (fun a b => (indexOf top5 (hashDigest b) <= indexOf top5 (hashDigest a))%Z)
      recent.
Proof.
  exists (reverse (top5RecentCodemods top5 codemodList)).
  split; [done|]. split.
  - apply Forall_forall. intros c Hc.
    rewrite elem_of_reverse in Hc. unfold top5RecentCodemods in Hc.
    rewrite sort_Permutation in Hc.
    apply list_elem_of_In, filter_In in Hc as [_ Hc].
    by apply bool_decide_eq_true in Hc.
  - apply (StronglySorted_reverse
             (fun a b => (indexOf top5 (hashDigest a) <= indexOf top5 (hashDigest b))%Z)).
    apply (sort_by_key (fun c => indexOf top5 (hashDigest c))).
Qed.

(** X18: for every item that was offered, the command finds an entry to
    run, so "Codemod is not selected" is not thrown for it; the entry is a
    codemod of the store and the first of the list that bears the name on
    the item. *)
Theorem codemodEntry_found_for_offered_item
  (top5 : list CodemodHash) (codemodList : list CodemodEntry) (item : QuickPickItem) :
  item ∈ quickPickItems top5 codemodList ->
  exists entry before after,
    codemodEntry top5 codemodList item = Some entry /\
    name entry = label item /\
    entry ∈ codemodList /\
    sortedCodemodList top5 codemodList = before ++ entry :: after /\
    Forall (fun codemod => name codemod <> label item) before.
Proof.
  intros Hitem. unfold quickPickItems in Hitem.
  apply list_elem_of_fmap in Hitem as (c & -> & Hc). cbn [label].
  unfold codemodEntry. cbn [label].
  assert (forall l, c ∈ l ->
            exists entry before after,
              List.find (fun codemod => bool_decide (name codemod = name c)) l
              = Some entry /\
              name entry = name c /\
              l = before ++ entry :: after /\
              Forall (fun codemod => name codemod <> name c) before) as Hfind.
  { induction l as [|x l IH]; intros Hin; [by apply elem_of_nil in Hin|].
    simpl. case_bool_decide as Hname.
    - exists x, [], l. repeat split; [done | constructor].
    - apply elem_of_cons in Hin as [->|Hin]; [done|].
      destruct (IH Hin) as (entry & before & after & Hf & Hn & -> & Hb).
      exists entry, (x :: before), after. repeat split; try done. by constructor. }
  destruct (Hfind _ Hc) as (entry & before & after & Hf & Hn & Hsplit & Hb).
  exists entry, before, after. repeat split; try done.
  rewrite <- (sortedCodemodList_rearranges top5 codemodList).
  rewrite Hsplit, elem_of_app, elem_of_cons. tauto.
Qed.

End RecentCodemods.

Lemma codemodEntry_found_for_offered_item_witness :
  exists entry before after,
    ExecuteCodemodWithinPath.codemodEntry ["hash-b"; "hash-a"]
      [ {| ExecuteCodemodWithinPath.hashDigest := "hash-a";
           ExecuteCodemodWithinPath.name := "a";
           ExecuteCodemodWithinPath.kind := "codemod" |};
        {| ExecuteCodemodWithinPath.hashDigest := "hash-b";
           ExecuteCodemodWithinPath.name := "b";
           ExecuteCodemodWithinPath.kind := "codemod" |};
        {| ExecuteCodemodWithinPath.hashDigest := "hash-c";
           ExecuteCodemodWithinPath.name := "c";
           ExecuteCodemodWithinPath.kind := "codemod" |} ]
      {| ExecuteCodemodWithinPath.label := "c";
         ExecuteCodemodWithinPath.description := None |}
    = Some entry /\
    ExecuteCodemodWithinPath.name entry = "c" /\
    entry ∈ [ {| ExecuteCodemodWithinPath.hashDigest := "hash-a";
                 ExecuteCodemodWithinPath.name := "a";
                 ExecuteCodemodWithinPath.kind := "codemod" |};
              {| ExecuteCodemodWithinPath.hashDigest := "hash-b";
                 ExecuteCodemodWithinPath.name := "b";
                 ExecuteCodemodWithinPath.kind := "codemod" |};
              {| ExecuteCodemodWithinPath.hashDigest := "hash-c";
                 ExecuteCodemodWithinPath.name := "c";
                 ExecuteCodemodWithinPath.kind := "codemod" |} ] /\
    ExecuteCodemodWithinPath.sortedCodemodList ["hash-b"; "hash-a"]
      [ {| ExecuteCodemodWithinPath.hashDigest := "hash-a";
           ExecuteCodemodWithinPath.name := "a";
           ExecuteCodemodWithinPath.kind := "codemod" |};
        {| ExecuteCodemodWithinPath.hashDigest := "hash-b";
           ExecuteCodemodWithinPath.name := "b";
           ExecuteCodemodWithinPath.kind := "codemod" |};
        {| ExecuteCodemodWithinPath.hashDigest := "hash-c";
           ExecuteCodemodWithinPath.name := "c";
           ExecuteCodemodWithinPath.kind := "codemod" |} ]
    = before ++ entry :: after /\
    Forall (fun codemod => ExecuteCodemodWithinPath.name codemod <> "c") before.
Proof.
  apply codemodEntry_found_for_offered_item.
  apply (list_elem_of_lookup_2 _ 2). vm_compute. reflexivity.
Defined.

(** ** The workspace state codec and the codemod runs tab *)

Section WorkspaceStateFacts.
Import WorkspaceState.

Lemma t_literal_Some s u x : t_literal s u = Some x -> u = UString s.
Proof.
  unfold t_literal. destruct u; try discriminate.
  case_decide; [by subst | discriminate].
Qed.

(** X19: the workspace state codec decodes what it encodes, and the
    variant it decodes to is always the one the [_tag] of the object
    names: the order of the union never lets one variant pass for
    another. *)
Theorem workspaceStateCodec_round_trip :
  (forall v, workspaceStateCodec (encode v) = Some v) /\
  (forall u v,
     workspaceStateCodec u = Some v ->
     exists props, u = UObject props /\ getProp "_tag" props = UString (tagOf v)).
Proof.
  split.
  - intros [[m]|r|[m] r]; reflexivity.
  - intros u v Hdec. destruct u as [| | | | |items|props]; try discriminate.
    exists props. split; [done|].
    unfold workspaceStateCodec in Hdec.
    repeat match type of Hdec with
           | context [match ?x with _ => _ end] => destruct x eqn:?
           end;
      try discriminate; injection Hdec as <-; cbn [tagOf];
      eauto using t_literal_Some.
Qed.

End WorkspaceStateFacts.

Section PersistedEdgeCases.
Import PersistedState.
Context `{HC : HashCodecs}.

Lemma digests_decode_None ds d :
  d ∈ ds -> isExplorerNodeHashDigest d = false ->
  mapM _explorerNodeHashDigestCodec (UString <$> ds) = None.
Proof.
  induction 1 as [d ds|d d' ds _ IH]; intros Hd; rewrite fmap_cons; cbn [mapM].
  - unfold _explorerNodeHashDigestCodec, branded. by rewrite Hd.
  - rewrite (IH Hd). unfold _explorerNodeHashDigestCodec, branded.
    by destruct (isExplorerNodeHashDigest d').
Qed.

(** X20: the record of selected explorer nodes is decoded as a whole or
    not at all: one case hash or one node digest
    that its codec rejects makes the record of every case fall back to the
    empty record. *)
Theorem one_bad_digest_drops_every_selection
  (props : list (string * unknown))
  (entries : list (CaseHash * list ExplorerNodeHashDigest))
  (k : CaseHash) (ds : list ExplorerNodeHashDigest) :
  getProp "selectedExplorerNodes" props = encodeExplorerNodes entries ->
  (k, ds) ∈ entries ->
  isCaseHash k = false \/ (exists d, d ∈ ds /\ isExplorerNodeHashDigest d = false) ->
  persisted_selectedExplorerNodes <$> persistedStateCodecNew (UObject props) = Some ∅.
Proof.
  intros Hprop Hin Hbad. cbn. unfold withFallback. rewrite Hprop. clear Hprop.
  assert (explorerNodesCodec (encodeExplorerNodes entries) = None) as ->; [|done].
  unfold explorerNodesCodec, encodeExplorerNodes, t_record.
  induction entries as [|[k' ds'] entries IH]; [by apply elem_of_nil in Hin|].
  rewrite fmap_cons. cbn [decodeProps fst snd].
  apply elem_of_cons in Hin as [Heq|Hin].
  - injection Heq as <- <-.
    destruct Hbad as [Hk | (d & Hd & Hbad)].
    + unfold caseHashCodec at 1, branded. by rewrite Hk.
    + unfold t_readonlyArray at 1. rewrite (digests_decode_None _ _ Hd Hbad).
      by destruct (caseHashCodec (UString k)).
  - rewrite (IH Hin).
    by destruct (caseHashCodec (UString k')),
         (t_readonlyArray _explorerNodeHashDigestCodec (UArray (UString <$> ds'))).
Qed.

End PersistedEdgeCases.

Section PersistedEdgeCasesExamples.
Import SpecServices PersistedState.

Lemma one_bad_digest_drops_every_selection_witness :
  persisted_selectedExplorerNodes
    <$> persistedStateCodecNew
          (UObject [("selectedExplorerNodes",
                     encodeExplorerNodes [("case-1", ["job-move"]); ("case-2", ["job-1"; ""])])])
  = Some ∅.
Proof.
  apply (one_bad_digest_drops_every_selection
           [("selectedExplorerNodes",
             encodeExplorerNodes [("case-1", ["job-move"]); ("case-2", ["job-1"; ""])])]
           [("case-1", ["job-move"]); ("case-2", ["job-1"; ""])]
           "case-2" ["job-1"; ""]).
  - reflexivity.
  - right. left.
  - right. exists "". split; [right; left | reflexivity].
Defined.

End PersistedEdgeCasesExamples.

Section CodemodRunsTabFacts.
Import CodemodRunsTab.
Context `{HC : HashCodecs}.

(** X21: whatever was persisted, the decoded codemod runs tab holds no
    selected case hash that the case hash codec rejects.  The tab is
    decoded as a whole or replaced by the fallback tab: when it is not the
    fallback, its selected case hash and its panel group settings are the
    persisted ones.  A tab persisted without a [selectedCaseHash]
    property is replaced by the fallback, its collapsed flags and panel
    settings included, since the property may be [null] but not
    missing. *)
Theorem codemodRunsTab_whole_or_fallback (u : unknown) :
  (selectedCaseHash (codemodRunsTabCodec u) = None \/
   exists h, selectedCaseHash (codemodRunsTabCodec u) = Some h /\ isCaseHash h = true) /\
  (codemodRunsTabCodec u = fallbackTab \/
   exists props,
     u = UObject props /\
     orNull caseHashCodec (getProp "selectedCaseHash" props)
     = Some (selectedCaseHash (codemodRunsTabCodec u)) /\
     panelGroupSettingsCodec (getProp "panelGroupSettings" props)
     = Some (panelGroupSettings (codemodRunsTabCodec u))) /\
  (forall props,
     u = UObject props ->
     getProp "selectedCaseHash" props = UUndefined ->
     codemodRunsTabCodec u = fallbackTab).
Proof.
  unfold codemodRunsTabCodec, PersistedState.withFallback.
  split; [|split].
  - destruct u as [| | | | | |props]; try by left.
    destruct (orNull caseHashCodec (getProp "selectedCaseHash" props))
      as [selected|] eqn:Hsel; [|by left].
    destruct (panelGroupSettingsCodec (getProp "panelGroupSettings" props));
      [|by left].
    cbn. destruct selected as [h|]; [|by left]. right. exists h. split; [done|].
    unfold orNull, caseHashCodec, branded in Hsel.
    destruct (getProp "selectedCaseHash" props); try discriminate.
    destruct (isCaseHash s) eqn:Hs; [|discriminate]. by injection Hsel as <-.
  - destruct u as [| | | | | |props]; try by left.
    destruct (orNull caseHashCodec (getProp "selectedCaseHash" props))
      as [selected|] eqn:Hsel; [|by left].
    destruct (panelGroupSettingsCodec (getProp "panelGroupSettings" props))
      as [settings|] eqn:Hset; [|by left].
    right. exists props. by rewrite Hsel, Hset.
  - intros props -> Hmissing. by rewrite Hmissing.
Qed.

End CodemodRunsTabFacts.

Section ClassifierFacts.
Import Classifier.

Lemma Node_Forall_ind (P : Node -> Prop) :
  (forall fullStart nodeEnd children,
     Forall P children -> P (mkNode fullStart nodeEnd children)) ->
  forall node, P node.
Proof.
  intros Hstep. fix IH 1. intros [fullStart nodeEnd children].
  apply Hstep. induction children as [|child children IHchildren].
  - constructor.
  - constructor; [apply IH | apply IHchildren].
Qed.

Lemma firstResult_Some {A B : Type} (f : A -> option B) (l : list A) (r : B) :
  firstResult f l = Some r -> exists x, x ∈ l /\ f x = Some r.
Proof.
  induction l as [|x l IH]; [done|]. cbn.
  destruct (f x) as [y|] eqn:Hx.
  - intros [= ->]. exists x. split; [left | done].
  - intros (x' & Hin & Hx')%IH. exists x'. split; [by right | done].
Qed.

Lemma firstResult_None {A B : Type} (f : A -> option B) (l : list A) :
  firstResult f l = None -> forall x, x ∈ l -> f x = None.
Proof.
  induction l as [|x l IH]; intros Hnone y Hin.
  - by apply elem_of_nil in Hin.
  - cbn in Hnone. destruct (f x) eqn:Hx; [done|].
    apply elem_of_cons in Hin as [-> | Hin]; [done | by apply IH].
Qed.

Lemma getNode_unfold (node : Node) (range : IntuitaSimpleRange) :
  getNode node range
  = if negb (isRangeWithinNode node range) then None
    else match getChildren node with
         | [] => Some node
         | children => firstResult (fun child => getNode child range) children
         end.
Proof. by destruct node as [? ? [|? ?]]. Qed.

(** X23: the node [getNode] returns has no children and holds the range,
    and it is the given node or lies below it with every node on the way
    down holding the range as well. *)
Theorem getNode_returns_a_leaf_holding_the_range
  (node r : Node) (range : IntuitaSimpleRange) :
  getNode node range = Some r ->
  getChildren r = [] /\ isRangeWithinNode r range = true /\ Reaches range node r.
Proof.
  revert r. induction node as [fullStart nodeEnd children IH] using Node_Forall_ind.
  intros r. rewrite getNode_unfold.
  destruct (isRangeWithinNode _ range) eqn:Hwithin; [|done]. cbn [negb getChildren].
  destruct children as [|child children].
  - intros [= <-]. repeat split; [done | by constructor].
  - intros (child' & Hin & Hchild)%firstResult_Some.
    rewrite Forall_forall in IH.
    destruct (IH child' Hin r Hchild) as (Hleaf & Hr & Hreach).
    repeat split; [done | done |]. by eapply reaches_child.
Qed.

Lemma getNode_returns_a_leaf_holding_the_range_witness :
  getChildren (mkNode 4 9 []) = [] /\
  isRangeWithinNode (mkNode 4 9 []) {| range_start := 5; range_end := 8 |} = true /\
  Reaches {| range_start := 5; range_end := 8 |}
    (mkNode 0 20 [mkNode 0 4 []; mkNode 4 12 [mkNode 4 9 []; mkNode 9 12 []]])
    (mkNode 4 9 []).
Proof.
  apply (getNode_returns_a_leaf_holding_the_range
           (mkNode 0 20 [mkNode 0 4 []; mkNode 4 12 [mkNode 4 9 []; mkNode 9 12 []]])
           (mkNode 4 9 []) {| range_start := 5; range_end := 8 |}).
  reflexivity.
Defined.

(** X24: [getNode] finds a node whenever one is there to find: if some
    node without children is the given node or lies below it, and it and
    every node on the way down hold the range, the result is not [null]. *)
Theorem getNode_finds_a_reachable_leaf
  (node r : Node) (range : IntuitaSimpleRange) :
  Reaches range node r ->
  getChildren r = [] ->
  is_Some (getNode node range).
Proof.
  intros Hreach Hleaf.
  induction Hreach as [node Hwithin | node child r Hwithin Hin Hreach IH].
  - rewrite getNode_unfold, Hwithin, Hleaf. by eexists.
  - rewrite getNode_unfold, Hwithin. cbn [negb].
    destruct (getChildren node) as [|c cs] eqn:Hchildren;
      [by apply elem_of_nil in Hin|].
    destruct (firstResult (fun child => getNode child range) (c :: cs)) eqn:Hfirst;
      [by eexists|].
    destruct (IH Hleaf) as [found Hfound].
    by rewrite (firstResult_None _ _ Hfirst child Hin) in Hfound.
Qed.

Lemma getNode_finds_a_reachable_leaf_witness :
  is_Some (getNode
             (mkNode 0 20 [mkNode 0 4 []; mkNode 4 12 [mkNode 4 9 []; mkNode 9 12 []]])
             {| range_start := 5; range_end := 8 |}).
Proof.
  apply (getNode_finds_a_reachable_leaf
           (mkNode 0 20 [mkNode 0 4 []; mkNode 4 12 [mkNode 4 9 []; mkNode 9 12 []]])
           (mkNode 4 9 []) {| range_start := 5; range_end := 8 |}).
  - eapply reaches_child; [reflexivity | right; left |].
    eapply reaches_child; [reflexivity | left |].
    by constructor.
  - reflexivity.
Defined.

End ClassifierFacts.
